(** * Shamir secret sharing solver: a shallow embedding of [answer.js] and
      [solvepolynomial.js]

    The two scripts compute on JavaScript Numbers, that is on IEEE 754
    binary64 values with round-to-nearest-even.  A Number is modelled by
    [spec_float] with the operations of [SpecFloat] at precision 53 and
    maximal exponent 1024, so every arithmetic step of the scripts is
    executed with the rounding the JavaScript engine performs.

    Conventions of the embedding:
    - a string is a [string] of 8-bit code units (the Latin-1 range of the
      UTF-16 code units a JavaScript string is made of); [convertToDecimal]
      is embedded a second time on sequences of 16-bit code units (module
      [Utf16]), where its errors are characterised for every string;
    - loop counters and the fields [n] and [k] of the input are integers
      ([Z]); a counter becomes a Number ([Z2F]) where the script stores it
      in a point or computes with it, which is exact below 2^53;
    - [parseInt] and [Math.pow], which the language lets an engine
      approximate on long numerals and large powers, are taken to round
      the exact result once; the theorems that evaluate them do so on
      values below 2^53, where the result is exact;
    - an exception is a [Throw] completion carrying the data of the message
      of the [Error] object; [console.log] calls are left out, they do not
      change any result;
    - [undefined] is [None]. *)

From Stdlib Require Import ZArith NArith String Ascii List Bool Lia.
From Stdlib Require Import Floats.SpecFloat.
From stdpp Require Import gmap strings list sorting.

Open Scope Z_scope.

(** ** JavaScript Numbers *)

Module Number.

Definition prec : Z := 53.
Definition emax : Z := 1024.

Definition number : Type := spec_float.

Definition add : number -> number -> number := SFadd prec emax.
Definition sub : number -> number -> number := SFsub prec emax.
Definition mul : number -> number -> number := SFmul prec emax.
Definition div : number -> number -> number := SFdiv prec emax.

(** The Number nearest to an integer (ties to even). *)
Definition Z2F (z : Z) : number := binary_normalize prec emax z 0 false.

Definition NaN : number := S754_nan.
Definition zero : number := S754_zero false.
Definition one : number := Z2F 1.

(** [a >= b] and [a > b] of JavaScript: false when unordered. *)
Definition geb (a b : number) : bool := SFleb b a.
Definition gtb (a b : number) : bool := SFltb b a.

(** NaN and the two infinities. *)
Definition nonfinite (x : number) : bool :=
  match x with
  | S754_nan | S754_infinity _ => true
  | _ => false
  end.

(** The integer a Number denotes, when it denotes one. *)
Definition F2Z (x : number) : option Z :=
  match x with
  | S754_zero _ => Some 0
  | S754_finite s m e =>
      if 0 <=? e then Some (cond_Zopp s (Zpos m * 2 ^ e))
      else if (Zpos m) mod 2 ^ (- e) =? 0
           then Some (cond_Zopp s (Zpos m / 2 ^ (- e)))
           else None
  | _ => None
  end.

(** The integer part of a Number, towards zero (0 for NaN and the
    infinities, as in the ToInt32 conversion). *)
Definition truncate (x : number) : Z :=
  match x with
  | S754_finite s m e =>
      cond_Zopp s (if 0 <=? e then Zpos m * 2 ^ e else Zpos m / 2 ^ (- e))
  | _ => 0
  end.

Definition ToInt32 (x : number) : Z :=
  let i := (truncate x) mod 2 ^ 32 in
  if 2 ^ 31 <=? i then i - 2 ^ 32 else i.

End Number.

Import Number.

Declare Scope js_scope.
Delimit Scope js_scope with js.
Infix "+" := add : js_scope.
Infix "-" := sub : js_scope.
Infix "*" := mul : js_scope.
Infix "/" := div : js_scope.

(** ** Built-in functions the scripts call *)

Module Builtin.

(** [Math.abs]. *)
Definition Math_abs (x : number) : number := SFabs x.

(** [Math.round]: the integral Number closest to [x], the one closer to
    +infinity on a tie; NaN, the infinities and the zeros are returned
    unchanged, and a negative [x] that rounds to zero gives -0. *)
Definition Math_round (x : number) : number :=
  match x with
  | S754_finite s m e =>
      if 0 <=? e then x
      else
        let r := (2 * cond_Zopp s (Zpos m) + 2 ^ (- e)) / 2 ^ (1 - e) in
        if r =? 0 then S754_zero s else Z2F r
  | _ => x
  end.

(** [Math.pow(x, p)] for a natural exponent [p]: the exact power, rounded
    once.  Engines agree with it where the exact power is a Number; where
    it is not, an engine may return a neighbouring Number. *)
Definition Math_pow (x : number) (p : nat) : number :=
  match p with
  | O => one
  | S _ =>
      match x with
      | S754_finite s m e =>
          binary_normalize prec emax
            (cond_Zopp s (Zpos m) ^ Z.of_nat p) (e * Z.of_nat p) false
      | S754_zero s => S754_zero (s && Nat.odd p)
      | S754_infinity s => S754_infinity (s && Nat.odd p)
      | S754_nan => S754_nan
      end
  end.

(** [c.toLowerCase()] on a single code unit. *)
Definition toLowerCase (c : ascii) : ascii :=
  let n := nat_of_ascii c in
  if ((65 <=? n) && (n <=? 90))%nat
     || ((192 <=? n) && (n <=? 222) && negb (n =? 215))%nat
  then ascii_of_nat (n + 32) else c.

(** [s.indexOf(c)] for a one-character search string: the first position
    of [c] in [s], or -1. *)
Fixpoint indexOf_from (s : string) (c : ascii) (pos : Z) : Z :=
  match s with
  | EmptyString => -1
  | String d rest => if Ascii.eqb d c then pos else indexOf_from rest c (pos + 1)
  end.

Definition indexOf (s : string) (c : ascii) : Z := indexOf_from s c 0.

(** White space of [parseInt]'s trimming, within the 8-bit range. *)
Definition is_white_space (c : ascii) : bool :=
  let n := nat_of_ascii c in
  ((9 <=? n) && (n <=? 13) || (n =? 32) || (n =? 160))%nat.

Fixpoint trim_start (s : string) : string :=
  match s with
  | String c rest => if is_white_space c then trim_start rest else s
  | EmptyString => s
  end.

(** The value of a character as a digit of [parseInt]. *)
Definition parse_digit (c : ascii) : option Z :=
  let n := Z.of_nat (nat_of_ascii c) in
  if (48 <=? n) && (n <=? 57) then Some (n - 48)
  else if (97 <=? n) && (n <=? 122) then Some (n - 87)
  else if (65 <=? n) && (n <=? 90) then Some (n - 55)
  else None.

(** The longest prefix of radix-[R] digits: its value and whether it is
    non-empty. *)
Fixpoint parse_digits (s : string) (R : Z) (acc : Z) (seen : bool) : Z * bool :=
  match s with
  | EmptyString => (acc, seen)
  | String c rest =>
      match parse_digit c with
      | Some d => if d <? R then parse_digits rest R (acc * R + d) true
                  else (acc, seen)
      | None => (acc, seen)
      end
  end.

Definition strip_sign (s : string) : bool * string :=
  match s with
  | String "-" rest => (true, rest)
  | String "+" rest => (false, rest)
  | _ => (false, s)
  end.

Definition strip_hex_prefix (s : string) : option string :=
  match s with
  | String "0" (String "x" rest) => Some rest
  | String "0" (String "X" rest) => Some rest
  | _ => None
  end.

(** [parseInt(s, radix)]; [radix = None] is a call with one argument.
    The mathematical value of the digits is rounded once to a Number.
    That is what every engine returns for a value below 2^53, and for the
    radixes 2, 4, 8, 10, 16 and 32; above 2^53 in another radix the
    language lets an engine approximate, and the result may be a
    neighbouring Number. *)
Definition parseInt (s : string) (radix : option number) : number :=
  let '(neg, S1) := strip_sign (trim_start s) in
  let R0 := match radix with Some r => ToInt32 r | None => 0 end in
  if negb (R0 =? 0) && ((R0 <? 2) || (36 <? R0)) then NaN
  else
    let stripPrefix := (R0 =? 0) || (R0 =? 16) in
    let R1 := if R0 =? 0 then 10 else R0 in
    let '(R, S2) :=
      match (if stripPrefix then strip_hex_prefix S1 else None) with
      | Some rest => (16, rest)
      | None => (R1, S1)
      end in
    let '(mathInt, seen) := parse_digits S2 R 0 false in
    if negb seen then NaN
    else if mathInt =? 0 then S754_zero neg
    else Z2F (cond_Zopp neg mathInt).

End Builtin.

Import Builtin.

(** ** Completions *)

(** The two [Error]s the scripts construct, with the values their messages
    interpolate. *)
Inductive error : Type :=
| InvalidDigit (c : ascii) (base : number)
| InsufficientPoints (needed found : Z).

Inductive completion (A : Type) : Type :=
| Normal (a : A)
| Throw (e : error).

Arguments Normal {A} a.
Arguments Throw {A} e.

#[global] Instance completion_ret : MRet completion := fun _ a => Normal a.

#[global] Instance completion_bind : MBind completion := fun _ _ f c =>
  match c with
  | Normal a => f a
  | Throw e => Throw e
  end.

(** A point [[x, y]]. *)
Definition point : Type := number * number.

(** An entry [{ base, value }] of the input and the input object itself:
    [keys.n], [keys.k] and the entries under the keys "1", "2", ... *)
Record EncodedPoint := { base : string; value : string }.

Record TestData := {
  keys_n : Z;
  keys_k : Z;
  entries : gmap Z EncodedPoint
}.

(** ** answer.js *)

Module Answer.

Definition digits : string := "0123456789abcdefghijklmnopqrstuvwxyz".

(** The body of the [for] loop of [convertToDecimal], from position [i]
    on: [value] is the rest of the string, [result] the accumulator. *)
Fixpoint convert_loop (value : string) (base : number) (result : number)
  : completion number :=
  match value with
  | EmptyString => Normal result
  | String c rest =>
      let digit := indexOf digits (toLowerCase c) in
      if (digit =? -1) || geb (Z2F digit) base
      then Throw (InvalidDigit c base)
      else convert_loop rest base (result * base + Z2F digit)%js
  end.

Definition convertToDecimal (value : string) (base : number) : completion number :=
  convert_loop value base zero.

(** [points.slice(0, k)]: a negative [k] counts from the end. *)
Definition slice0 {A} (l : list A) (k : Z) : list A :=
  if k <? 0 then take (Z.to_nat (Z.of_nat (length l) + k)) l
  else take (Z.to_nat k) l.

(** [selectedPoints[i]]; the loops below only read inside the array. *)
Definition at_index (sel : list point) (i : nat) : point :=
  nth i sel (NaN, NaN).

(** The inner [for] loop: the basis value L_i(0), factor after factor. *)
Definition basis (sel : list point) (i : nat) : number :=
  let xi := fst (at_index sel i) in
  fold_left
    (fun basisValue j =>
       if (i =? j)%nat then basisValue
       else
         let xj := fst (at_index sel j) in
         (basisValue * ((zero - xj) / (xi - xj)))%js)
    (seq 0 (length sel)) one.

(** The outer [for] loop: the sum before rounding. *)
Definition lagrange_sum (sel : list point) : number :=
  fold_left
    (fun secret i =>
       let yi := snd (at_index sel i) in
       (secret + yi * basis sel i)%js)
    (seq 0 (length sel)) zero.

(** The function has no [throw]: on an array of points it always
    completes normally. *)
Definition lagrangeInterpolation (points : list point) (k : Z)
  : completion number :=
  let selectedPoints := slice0 points k in
  Normal (Math_round (lagrange_sum selectedPoints)).

Record Parsed := {
  parsed_n : Z;
  parsed_k : Z;
  parsed_points : list point;
  totalPointsFound : Z
}.

(** The [for] loop of [parseTestCase], [fuel] iterations from counter
    [i] on, with the points pushed so far. *)
Fixpoint parse_loop (testData : TestData) (fuel : nat) (i : Z)
    (points : list point) : completion (list point) :=
  match fuel with
  | O => Normal points
  | S fuel' =>
      match entries testData !! i with
      | Some e =>
          y ← convertToDecimal (value e) (parseInt (base e) None);
          parse_loop testData fuel' (i + 1) (points ++ [(Z2F i, y)])
      | None => parse_loop testData fuel' (i + 1) points
      end
  end.

Definition parseTestCase (testData : TestData) : completion Parsed :=
  let n := keys_n testData in
  let k := keys_k testData in
  points ← parse_loop testData (Z.to_nat n) 1 [];
  Normal {| parsed_n := n; parsed_k := k; parsed_points := points;
            totalPointsFound := Z.of_nat (length points) |}.

Record Solution := {
  secret : number;
  pointsUsed : Z;
  totalPoints : Z;
  polynomial_degree : number
}.

Definition solveShamirSecretSharing (testData : TestData) : completion Solution :=
  parsed ← parseTestCase testData;
  let k := parsed_k parsed in
  let points := parsed_points parsed in
  if totalPointsFound parsed <? k
  then Throw (InsufficientPoints k (totalPointsFound parsed))
  else
    secret ← lagrangeInterpolation points k;
    Normal {| secret := secret; pointsUsed := k;
              totalPoints := totalPointsFound parsed;
              polynomial_degree := (Z2F k - one)%js |}.

Definition entry (b v : string) : EncodedPoint := {| base := b; value := v |}.

(** The two inputs the script carries. *)
Definition testCase1 : TestData :=
  {| keys_n := 4; keys_k := 3;
     entries := list_to_map
       [ (1, entry "10" "4"); (2, entry "2" "111");
         (3, entry "10" "12"); (6, entry "4" "213") ] |}.

Definition testCase2 : TestData :=
  {| keys_n := 10; keys_k := 7;
     entries := list_to_map
       [ (1, entry "6" "13444211440455345511");
         (2, entry "15" "aed7015a346d635");
         (3, entry "15" "6aeeb69631c227c");
         (4, entry "16" "e1b5e05623d881f");
         (5, entry "8" "316034514573652620673");
         (6, entry "3" "2122212201122002221120200210011020220200");
         (7, entry "3" "20120221122211000100210021102001201112121");
         (8, entry "6" "20220554335330240002224253");
         (9, entry "12" "45153788322a1255483");
         (10, entry "7" "1101613130313526312514143") ] |}.

End Answer.

Import Answer.

(** ** solvepolynomial.js *)

Module SolvePolynomial.

Definition parseValue (base value : string) : number :=
  parseInt value (Some (parseInt base None)).

(** [v[i]] and [A[k][j]]; [gaussJordan] only reads inside its arrays. *)
Definition vget (v : list number) (i : nat) : number := nth i v NaN.
Definition mget (A : list (list number)) (k j : nat) : number :=
  vget (nth k A []) j.

(** [[l[i], l[j]] = [l[j], l[i]]]. *)
Definition swap {X} (l : list X) (i j : nat) : list X :=
  match l !! i, l !! j with
  | Some a, Some b => <[j:=a]> (<[i:=b]> l)
  | _, _ => l
  end.

(** The search of the pivot row: the first row from [i] on whose entry in
    column [i] has the largest magnitude. *)
Definition find_maxRow (A : list (list number)) (i n : nat) : nat :=
  fold_left
    (fun maxRow k =>
       if gtb (Math_abs (mget A k i)) (Math_abs (mget A maxRow i))
       then k else maxRow)
    (seq (i + 1) (n - (i + 1))) i.

(** [for (j = i; j < n; j++) row[j] /= div]. *)
Definition scale_row (row : list number) (i n : nat) (div : number) : list number :=
  fold_left (fun r j => <[j := (vget r j / div)%js]> r) (seq i (n - i)) row.

(** [for (j = i; j < n; j++) row[j] -= factor * pivot[j]]. *)
Definition sub_row (row pivot : list number) (i n : nat) (factor : number)
  : list number :=
  fold_left (fun r j => <[j := (vget r j - factor * vget pivot j)%js]> r)
    (seq i (n - i)) row.

(** One iteration of the outer loop of [gaussJordan]. *)
Definition gauss_step (n : nat) (st : list (list number) * list number) (i : nat)
  : list (list number) * list number :=
  let '(A, b) := st in
  let maxRow := find_maxRow A i n in
  let A := swap A i maxRow in
  let b := swap b i maxRow in
  let div := mget A i i in
  let A := <[i := scale_row (nth i A []) i n div]> A in
  let b := <[i := (vget b i / div)%js]> b in
  fold_left
    (fun '(A, b) k =>
       if (k =? i)%nat then (A, b)
       else
         let factor := mget A k i in
         let A := <[k := sub_row (nth k A []) (nth i A []) i n factor]> A in
         let b := <[k := (vget b k - factor * vget b i)%js]> b in
         (A, b))
    (seq 0 n) (A, b).

Definition gaussJordan (A : list (list number)) (b : list number) : list number :=
  let n := length A in
  snd (fold_left (gauss_step n) (seq 0 n) (A, b)).

(** The [while] loop of [solvePolynomial]; it runs at most [n] times. *)
Fixpoint extract_loop (jsonData : TestData) (fuel : nat) (idx : Z)
    (points : list point) : list point :=
  match fuel with
  | O => points
  | S fuel' =>
      if (Z.of_nat (length points) <? keys_k jsonData) && (idx <=? keys_n jsonData)
      then
        let points :=
          match entries jsonData !! idx with
          | Some e => points ++ [(Z2F idx, parseValue (base e) (value e))]
          | None => points
          end in
        extract_loop jsonData fuel' (idx + 1) points
      else points
  end.

Definition extract_points (jsonData : TestData) : list point :=
  extract_loop jsonData (Z.to_nat (keys_n jsonData)) 1 [].

(** The matrix of powers and the right-hand side built from the points. *)
Definition build_system (points : list point) (degree : Z)
  : list (list number) * list number :=
  (map (fun pt : point =>
          map (fun p => Math_pow (fst pt) p) (seq 0 (Z.to_nat (degree + 1))))
       points,
   map snd points).

(** The interpolation step of [solvePolynomial], on the points found. *)
Definition solve_points (points : list point) (k : Z) : option number :=
  let degree := k - 1 in
  let '(A, b) := build_system points degree in
  let coeffs := gaussJordan A b in
  coeffs !! 0%nat.

(** The result is [coeffs[0]], [undefined] for an empty array. *)
Definition solvePolynomial (jsonData : TestData) : option number :=
  solve_points (extract_points jsonData) (keys_k jsonData).

End SolvePolynomial.

Import SolvePolynomial.

(** An input that asks for 7 points and has 5. *)
Definition short_input : TestData :=
  {| keys_n := 10; keys_k := 7;
     entries := list_to_map
       [ (1, entry "10" "4"); (2, entry "2" "111"); (3, entry "10" "12");
         (4, entry "16" "1f"); (5, entry "4" "213") ] |}.

(** An input on the line y = 1 + 10^15 x, at the keys 2, 3 and 4. *)
Definition line_input : TestData :=
  {| keys_n := 4; keys_k := 3;
     entries := list_to_map
       [ (2, entry "10" "2000000000000001");
         (3, entry "10" "3000000000000001");
         (4, entry "10" "4000000000000001") ] |}.

(** ** answer.js: [convertToDecimal] on UTF-16 code units *)

Module Utf16.

(** A string of JavaScript: a sequence of 16-bit code units. *)
Definition ustring : Type := list N.

(** The code units of a string of the Latin-1 range. *)
Definition units (s : string) : ustring :=
  map N_of_ascii (list_ascii_of_string s).

(** [c.toLowerCase()] on a string of one code unit; the result can have
    two units.  The Latin-1 range is as in [Builtin.toLowerCase].  Beyond
    it the two units whose lower-case form has a unit of the ASCII range
    are listed: U+0130, which becomes i followed by U+0307, and U+212A
    (KELVIN SIGN), which becomes k.  The lower-case form of every other
    unit lies outside the ASCII range; it is represented by the unit
    itself, which [indexOf] on the ASCII string [digits] cannot tell apart
    from it. *)
Definition toLowerCase (u : N) : ustring :=
  (if (65 <=? u) && (u <=? 90)
      || (192 <=? u) && (u <=? 222) && negb (u =? 215)
   then [u + 32]
   else if u =? 304 then [105; 775]
   else if u =? 8490 then [107]
   else [u])%N.

(** [x] occurs in [s] at position 0. *)
Fixpoint starts_with (s x : ustring) : bool :=
  match x, s with
  | [], _ => true
  | v :: x', w :: s' => (v =? w)%N && starts_with s' x'
  | _ :: _, [] => false
  end.

(** [s.indexOf(x)]: the first position at which [x] occurs in [s] as a
    substring, or -1. *)
Fixpoint indexOf_from (s x : ustring) (pos : Z) : Z :=
  if starts_with s x then pos
  else match s with
       | [] => -1
       | _ :: rest => indexOf_from rest x (pos + 1)
       end.

Definition indexOf (s x : ustring) : Z := indexOf_from s x 0.

(** The [Error] of [convertToDecimal], with the code unit and the base its
    message interpolates. *)
Inductive error : Type :=
| InvalidDigit (c : N) (base : number).

Inductive completion : Type :=
| Normal (result : number)
| Throw (e : error).

Definition digits : ustring := units Answer.digits.

(** The [for] loop of [convertToDecimal], as [Answer.convert_loop]. *)
Fixpoint convert_loop (value : ustring) (base : number) (result : number)
  : completion :=
  match value with
  | [] => Normal result
  | c :: rest =>
      let digit := indexOf digits (toLowerCase c) in
      if (digit =? -1) || geb (Z2F digit) base
      then Throw (InvalidDigit c base)
      else convert_loop rest base (result * base + Z2F digit)%js
  end.

Definition convertToDecimal (value : ustring) (base : number) : completion :=
  convert_loop value base zero.

End Utf16.

(** ** The notions the statements are written with *)

Module Spec.

(** A character is a digit of base [b] when it is one of 0-9, a-z or A-Z
    and its value is below [b]. *)
Definition valid_digit (b : Z) (c : ascii) : bool :=
  match parse_digit c with
  | Some d => d <? b
  | None => false
  end.

Definition chars (s : string) : list ascii := list_ascii_of_string s.

Definition valid_in_base (b : Z) (s : string) : bool :=
  forallb (valid_digit b) (chars s).

(** The digit value of a code unit: 0-9, a-z and A-Z as in [parse_digit],
    and U+212A (KELVIN SIGN), whose lower-case form is k. *)
Definition unit_digit (u : N) : option Z :=
  if ((48 <=? u) && (u <=? 57))%N then Some (Z.of_N u - 48)
  else if ((97 <=? u) && (u <=? 122))%N then Some (Z.of_N u - 87)
  else if ((65 <=? u) && (u <=? 90))%N then Some (Z.of_N u - 55)
  else if (u =? 8490)%N then Some 20
  else None.

(** A code unit is a digit of base [b]. *)
Definition valid_unit (b : Z) (u : N) : bool :=
  match unit_digit u with
  | Some d => d <? b
  | None => false
  end.



(** The integer a digit string denotes: left to right,
    [result * b + digitValue c], on unbounded integers. *)
Definition digit_step (b : Z) (acc : Z) (c : ascii) : Z :=
  acc * b + default 0 (parse_digit c).

Definition positional (b : Z) (s : string) : Z :=
  fold_left (digit_step b) (chars s) 0.

(** Modelled from the spec: the symbol of a digit value, 0-9 then a-z
    (the repository renders no numeral; see [render]). *)
Definition digit_char (d : Z) : ascii :=
  if d <? 10 then ascii_of_nat (Z.to_nat (48 + d))
  else ascii_of_nat (Z.to_nat (87 + d)).

(** Modelled from the spec: the digits of [v], least significant first,
    pushed in front of [acc]. *)
Fixpoint render_loop (fuel : nat) (b v : Z) (acc : string) : string :=
  match fuel with
  | O => acc
  | S fuel' =>
      let acc := String (digit_char (v mod b)) acc in
      if v / b =? 0 then acc else render_loop fuel' b (v / b) acc
  end.

(** Modelled from the spec: the repository has no function that renders
    an integer as a digit string, and the round trip of the spec's
    testable properties needs one.  [render b v] is the base-[b] numeral
    of [v >= 0], most significant digit first, "0" for zero. *)
Definition render (b v : Z) : string :=
  render_loop (S (Z.to_nat (Z.log2 v))) b v "".

(** The value of a polynomial given by its coefficients, constant term
    first. *)
Definition poly_eval (coeffs : list Z) (x : Z) : Z :=
  fold_right (fun a acc => a + x * acc) 0 coeffs.

(** The point of abscissa [x] on the polynomial. *)
Definition sample (coeffs : list Z) (x : Z) : point :=
  (Z2F x, Z2F (poly_eval coeffs x)).

(** The keys among 1..n under which the input has an entry, ascending. *)
Definition present_keys (td : TestData) : list Z :=
  filter (fun i => is_Some (entries td !! i)) (seqZ 1 (keys_n td)).

(** An entry is a valid encoded point: its base numeral denotes an
    integer of 2..36 and its value has only digits of that base. *)
Definition valid_entry (e : EncodedPoint) : Prop :=
  exists b, 2 <= b <= 36 /\ parseInt (base e) None = Z2F b
            /\ valid_in_base b (value e) = true.

Definition valid_entries (td : TestData) : Prop :=
  forall i e, 1 <= i <= keys_n td -> entries td !! i = Some e -> valid_entry e.

(** The ordinate [answer.js] computes for an entry. *)
Definition decode (e : EncodedPoint) : completion number :=
  convertToDecimal (value e) (parseInt (base e) None).

(** [pt] is the point of key [i]: the key as abscissa, the decoded value
    of the entry under the key as ordinate. *)
Definition decoded_at (td : TestData) (i : Z) (pt : point) : Prop :=
  exists e, entries td !! i = Some e /\ fst pt = Z2F i
            /\ decode e = Normal (snd pt).

(** The point [solvepolynomial.js] builds for the key [i]. *)
Definition linear_point (td : TestData) (i : Z) : point :=
  (Z2F i,
   match entries td !! i with
   | Some e => parseValue (base e) (value e)
   | None => NaN
   end).

(** The abscissae increase strictly, as Numbers. *)
Definition ascending (points : list point) : Prop :=
  StronglySorted (fun x y => SFltb x y = true) (map fst points).

(** The accumulation step of [convertToDecimal], on Numbers. *)
Definition accumulate (base : number) (result : number) (c : ascii) : number :=
  (result * base + Z2F (indexOf digits (toLowerCase c)))%js.

(** The mantissa of the Number of a positive integer below 2^53. *)
Definition aligned (p : positive) : positive :=
  match (Zpos (digits2_pos p) - prec)%Z with
  | Zneg d => Pos.iter xO p d
  | _ => p
  end.

(** A call returns the Number that denotes the integer [v]. *)
Definition returns_integer (c : completion number) (v : Z) : Prop :=
  exists r, c = Normal r /\ F2Z r = Some v.

(** Two of the points of [sel] have the same abscissa. *)
Definition duplicate_abscissa (sel : list point) : Prop :=
  exists i j, (i < j < length sel)%nat /\
              fst (at_index sel i) = fst (at_index sel j).

End Spec.

Import Spec.

(** ** Further notions and inputs *)

Module Behaviour.

(** One of the 62 characters 0-9, a-z, A-Z. *)
Definition alphanumeric (c : ascii) : bool :=
  match parse_digit c with Some _ => true | None => false end.

(** [s.toLowerCase()], code unit by code unit. *)
Fixpoint lowercase (s : string) : string :=
  match s with
  | EmptyString => EmptyString
  | String c rest => String (toLowerCase c) (lowercase rest)
  end.

(** Two inputs with the same [n] and [k] and the same entries under the
    keys 1..n. *)
Definition agree_in_range (td1 td2 : TestData) : Prop :=
  keys_n td1 = keys_n td2 /\ keys_k td1 = keys_k td2
  /\ forall i, 1 <= i <= keys_n td1 -> entries td1 !! i = entries td2 !! i.

(** An input with an invalid digit under key 2 and too few points. *)
Definition bad_digit_input : TestData :=
  {| keys_n := 3; keys_k := 7;
     entries := list_to_map [ (1, entry "10" "4"); (2, entry "2" "102") ] |}.

(** [testCase1] with other entries beyond its [n = 4]. *)
Definition testCase1_beyond : TestData :=
  {| keys_n := 4; keys_k := 3;
     entries := list_to_map
       [ (0, entry "10" "77"); (1, entry "10" "4"); (2, entry "2" "111");
         (3, entry "10" "12"); (5, entry "zz" "!") ] |}.

(** An input whose [n] is 0, with an entry all the same. *)
Definition no_candidate_input : TestData :=
  {| keys_n := 0; keys_k := 2;
     entries := list_to_map [ (1, entry "10" "4"); (2, entry "1" "!!") ] |}.

(** An input with the threshold 1. *)
Definition single_share_input : TestData :=
  {| keys_n := 3; keys_k := 1;
     entries := list_to_map [ (2, entry "16" "ff"); (3, entry "10" "5") ] |}.

(** An input with the threshold 0. *)
Definition zero_threshold_input : TestData :=
  {| keys_n := 2; keys_k := 0;
     entries := list_to_map [ (1, entry "10" "4") ] |}.

(** [testCase1] with a fourth share that is not on the parabola of the
    first three. *)
Definition testCase1_fourth : TestData :=
  {| keys_n := 4; keys_k := 3;
     entries := list_to_map
       [ (1, entry "10" "4"); (2, entry "2" "111");
         (3, entry "10" "12"); (4, entry "10" "999") ] |}.

(** A matrix with a larger entry in its second row. *)
Definition sample_matrix : list (list number) :=
  [ [Z2F 1; Z2F 1]; [Z2F (-2); Z2F 3] ].


(** +0, a positive finite Number or +Infinity. *)
Definition nonnegative (x : number) : bool :=
  match x with
  | S754_zero false | S754_infinity false | S754_finite false _ _ => true
  | _ => false
  end.

End Behaviour.
Import Behaviour.

(** ** The base converter *)

Section BaseConverter.

Lemma indexOf_digits (c : ascii) :
  indexOf digits (toLowerCase c) = default (-1) (parse_digit c).
Proof.
  destruct c as [[] [] [] [] [] [] [] []]; vm_compute; reflexivity.
Qed.

Lemma parse_digit_range (c : ascii) (d : Z) :
  parse_digit c = Some d -> 0 <= d < 36.
Proof.
  destruct c as [[] [] [] [] [] [] [] []]; intros H; vm_compute in H;
    inversion H; subst; lia.
Qed.

(** On digits and bases, the comparison of Numbers is the comparison of
    the integers. *)
Lemma geb_digit_base (d b : Z) :
  0 <= d < 36 -> 2 <= b <= 36 -> geb (Z2F d) (Z2F b) = (b <=? d).
Proof.
  intros Hd Hb.
  assert (Hall : forallb (fun b' =>
             forallb (fun d' => Bool.eqb (geb (Z2F d') (Z2F b')) (b' <=? d'))
                     (seqZ 0 36)) (seqZ 2 35) = true) by (vm_compute; reflexivity).
  rewrite forallb_forall in Hall.
  specialize (Hall b). rewrite forallb_forall in Hall.
  apply Bool.eqb_prop, Hall.
  - apply list_elem_of_In, elem_of_seqZ; lia.
  - apply list_elem_of_In, elem_of_seqZ; lia.
Qed.

(** The test of the loop body is the negation of [valid_digit]. *)
Lemma digit_test (b : Z) (c : ascii) :
  2 <= b <= 36 ->
  (indexOf digits (toLowerCase c) =? -1)
    || geb (Z2F (indexOf digits (toLowerCase c))) (Z2F b)
  = negb (valid_digit b c).
Proof.
  intros Hb. rewrite indexOf_digits. unfold valid_digit.
  destruct (parse_digit c) as [d|] eqn:Hc; simpl; [|reflexivity].
  pose proof (parse_digit_range _ _ Hc) as Hd.
  rewrite geb_digit_base by assumption.
  destruct (d =? -1) eqn:E; [lia|]. simpl. lia.
Qed.

Lemma convert_loop_unfold (b : Z) (value : string) (result : number) :
  2 <= b <= 36 ->
  convert_loop value (Z2F b) result =
    match find (fun c => negb (valid_digit b c)) (chars value) with
    | Some c => Throw (InvalidDigit c (Z2F b))
    | None => Normal (fold_left (accumulate (Z2F b)) (chars value) result)
    end.
Proof.
  intros Hb. revert result.
  induction value as [|c rest IH]; intros result; simpl; [reflexivity|].
  rewrite digit_test by assumption.
  destruct (valid_digit b c); simpl; [apply IH | reflexivity].
Qed.

Lemma find_invalid_none (b : Z) (value : string) :
  find (fun c => negb (valid_digit b c)) (chars value) = None
  <-> valid_in_base b value = true.
Proof.
  unfold valid_in_base. induction (chars value) as [|c l IH]; simpl; [tauto|].
  destruct (valid_digit b c); simpl; [exact IH | split; discriminate].
Qed.

Lemma find_invalid_some (b : Z) (value : string) (c : ascii) :
  find (fun c => negb (valid_digit b c)) (chars value) = Some c ->
  In c (chars value) /\ valid_digit b c = false.
Proof.
  intros H. apply find_some in H as [Hin Hc]. split; [exact Hin|].
  destruct (valid_digit b c); [discriminate | reflexivity].
Qed.

(** A valid entry decodes without an exception. *)
Lemma valid_entry_decodes (e : EncodedPoint) :
  valid_entry e ->
  exists y, convertToDecimal (value e) (parseInt (base e) None) = Normal y.
Proof.
  intros (b & Hb & Hbase & Hv). rewrite Hbase.
  unfold convertToDecimal. rewrite convert_loop_unfold by assumption.
  apply find_invalid_none in Hv. rewrite Hv. eauto.
Qed.

(** *** On code units *)









Lemma toLowerCase_latin1 (c : ascii) :
  Utf16.toLowerCase (N_of_ascii c) = [N_of_ascii (toLowerCase c)].
Proof.
  destruct c as [[] [] [] [] [] [] [] []]; vm_compute; reflexivity.
Qed.

Lemma indexOf_latin1 (c : ascii) :
  Utf16.indexOf Utf16.digits [N_of_ascii c] = indexOf digits c.
Proof.
  destruct c as [[] [] [] [] [] [] [] []]; vm_compute; reflexivity.
Qed.

Lemma valid_unit_latin1 (b : Z) (c : ascii) :
  valid_unit b (N_of_ascii c) = valid_digit b c.
Proof.
  unfold valid_unit, valid_digit.
  replace (unit_digit (N_of_ascii c)) with (parse_digit c); [reflexivity|].
  destruct c as [[] [] [] [] [] [] [] []]; vm_compute; reflexivity.
Qed.

(** On a string of the Latin-1 range the two embeddings of
    [convertToDecimal] do the same. *)
Lemma convert_loop_latin1 (s : string) (base result : number) :
  (forall r, convert_loop s base result = Normal r ->
     Utf16.convert_loop (Utf16.units s) base result = Utf16.Normal r)
  /\ (forall c b, convert_loop s base result = Throw (InvalidDigit c b) ->
        Utf16.convert_loop (Utf16.units s) base result
        = Utf16.Throw (Utf16.InvalidDigit (N_of_ascii c) b)).
Proof.
  revert result. induction s as [|c rest IH]; intros result.
  - split; [intros r H; inversion H; reflexivity | intros c b H; discriminate H].
  - change (Utf16.units (String c rest)) with (N_of_ascii c :: Utf16.units rest).
    cbn [convert_loop Utf16.convert_loop]. cbv zeta.
    rewrite toLowerCase_latin1, indexOf_latin1.
    destruct ((indexOf digits (toLowerCase c) =? -1)
              || geb (Z2F (indexOf digits (toLowerCase c))) base).
    + split; [intros r H; discriminate H | intros c' b H; inversion H; reflexivity].
    + apply IH.
Qed.




(** C9, as stated, fails: on the empty string the loop body never runs
    and the call returns normally. *)
Lemma convertToDecimal_empty_no_error :
  ~ (exists e, convertToDecimal "" (Z2F 10) = Throw e).
Proof. intros [e He]. discriminate He. Qed.

(** C9, amended: on the empty string [convertToDecimal] returns 0, for
    every base, and throws nothing; so an entry with an empty value decodes
    to the ordinate 0. *)
Theorem convertToDecimal_empty :
  (forall base : number, convertToDecimal "" base = Normal zero)
  /\ (forall e : EncodedPoint, value e = "" -> decode e = Normal zero).
Proof.
  split; [reflexivity|].
  intros e He. unfold decode. rewrite He. reflexivity.
Qed.

Lemma convertToDecimal_empty_witness :
  value (entry "10" "") = "" /\ decode (entry "10" "") = Normal zero.
Proof.
  split; [reflexivity|].
  apply (proj2 convertToDecimal_empty (entry "10" "")). reflexivity.
Defined.

End BaseConverter.

(** ** Integers as Numbers *)

Section IntegerNumbers.

Lemma digits2_pos_log2 (p : positive) :
  Zpos (digits2_pos p) = Z.log2 (Zpos p) + 1.
Proof.
  induction p as [p IH | p IH |]; [| |reflexivity].
  - change (digits2_pos p~1) with (Pos.succ (digits2_pos p)).
    rewrite Pos2Z.inj_succ, IH.
    change (Zpos p~1) with (2 * Zpos p + 1).
    rewrite Z.log2_succ_double by lia. lia.
  - change (digits2_pos p~0) with (Pos.succ (digits2_pos p)).
    rewrite Pos2Z.inj_succ, IH.
    change (Zpos p~0) with (2 * Zpos p).
    rewrite Z.log2_double by lia. lia.
Qed.

Lemma iter_xO_value (p d : positive) :
  Zpos (Pos.iter xO p d) = Zpos p * 2 ^ Zpos d.
Proof.
  induction d as [|d IH] using Pos.peano_ind.
  - simpl. lia.
  - rewrite Pos.iter_succ, Pos2Z.inj_succ, Z.pow_succ_r by lia.
    rewrite Pos2Z.inj_xO, IH. lia.
Qed.

Lemma aligned_value (p : positive) :
  Zpos (digits2_pos p) <= prec ->
  Zpos (aligned p) = Zpos p * 2 ^ (prec - Zpos (digits2_pos p)).
Proof.
  intros H. unfold aligned.
  destruct (Zpos (digits2_pos p) - prec) as [|d|d] eqn:E; try lia.
  - replace (prec - Zpos (digits2_pos p)) with 0 by lia. simpl. lia.
  - rewrite iter_xO_value. f_equal. f_equal. lia.
Qed.

Lemma aligned_digits (p : positive) :
  Zpos (digits2_pos p) <= prec ->
  Zpos (digits2_pos (aligned p)) = prec.
Proof.
  intros H. rewrite digits2_pos_log2, aligned_value by assumption.
  rewrite digits2_pos_log2 in *.
  rewrite Z.log2_mul_pow2 by (pose proof (Z.log2_nonneg (Zpos p)); lia). lia.
Qed.

Lemma Z2F_pos (p : positive) :
  Zpos (digits2_pos p) <= prec ->
  Z2F (Zpos p) = S754_finite false (aligned p) (Zpos (digits2_pos p) - prec).
Proof.
  intros H. pose proof (aligned_digits p H) as Hd.
  assert (H1 : 1 <= Zpos (digits2_pos p)) by lia.
  unfold Z2F, binary_normalize, binary_round.
  assert (Hal : shl_align p 0 (fexp prec emax (Zpos (digits2_pos p) + 0))
                = (aligned p, Zpos (digits2_pos p) - prec)).
  { unfold shl_align, aligned, fexp, emin. unfold prec in *. unfold emax.
    replace (Z.max (Zpos (digits2_pos p) + 0 - 53) (3 - 1024 - 53))
      with (Zpos (digits2_pos p) - 53) by lia.
    rewrite Z.sub_0_r.
    destruct (Zpos (digits2_pos p) - 53) as [|d|d] eqn:E; try reflexivity; lia. }
  rewrite Hal.
  unfold binary_round_aux, shr_fexp.
  unfold Zdigits2. rewrite Hd.
  assert (Hf : fexp prec emax (prec + (Zpos (digits2_pos p) - prec))
               - (Zpos (digits2_pos p) - prec) = 0).
  { unfold fexp, emin. unfold prec in *. unfold emax. lia. }
  rewrite Hf. simpl shr. cbv iota beta. simpl shr_m. simpl round_nearest_even.
  unfold Zdigits2. rewrite Hd, Hf. simpl.
  destruct (Zpos (digits2_pos p) - prec <=? emax - prec) eqn:E; [reflexivity|].
  unfold prec, emax in *. lia.
Qed.

(** On the positive integers below 2^53 the order of the Numbers is the
    order of the integers. *)
Lemma Z2F_lt (i j : Z) :
  0 < i -> i < j -> j < 2 ^ 53 -> SFltb (Z2F i) (Z2F j) = true.
Proof.
  intros Hi Hij Hj.
  destruct i as [|p|p]; try lia. destruct j as [|q|q]; try lia.
  assert (Hp : Zpos (digits2_pos p) <= prec).
  { rewrite digits2_pos_log2. unfold prec.
    assert (Z.log2 (Zpos p) < 53) by (apply Z.log2_lt_pow2; lia). lia. }
  assert (Hq : Zpos (digits2_pos q) <= prec).
  { rewrite digits2_pos_log2. unfold prec.
    assert (Z.log2 (Zpos q) < 53) by (apply Z.log2_lt_pow2; lia). lia. }
  rewrite !Z2F_pos by assumption.
  assert (Hmono : Zpos (digits2_pos p) <= Zpos (digits2_pos q)).
  { rewrite !digits2_pos_log2.
    assert (Z.log2 (Zpos p) <= Z.log2 (Zpos q)) by (apply Z.log2_le_mono; lia). lia. }
  unfold SFltb, SFcompare.
  destruct (Z.compare_spec (Zpos (digits2_pos p) - prec) (Zpos (digits2_pos q) - prec))
    as [Heq|Hlt|Hgt]; [|reflexivity|lia].
  assert (Hm : Zpos (aligned p) < Zpos (aligned q)).
  { rewrite !aligned_value by assumption.
    replace (Zpos (digits2_pos q)) with (Zpos (digits2_pos p)) by lia.
    apply Z.mul_lt_mono_pos_r; [|lia]. apply Z.pow_pos_nonneg; lia. }
  rewrite Pos.compare_cont_spec. simpl.
  apply Pos.compare_lt_iff in Hm. rewrite Hm. reflexivity.
Qed.

Lemma SFltb_irrefl (x : number) : SFltb x x = false.
Proof.
  destruct x as [s|[]| |[] m e]; try reflexivity.
  - unfold SFltb, SFcompare. rewrite Z.compare_refl, Pos.compare_cont_refl. reflexivity.
  - unfold SFltb, SFcompare. rewrite Z.compare_refl, Pos.compare_cont_refl. reflexivity.
Qed.

End IntegerNumbers.


(** ** Integer arithmetic below 2^53 *)

Section ExactIntegers.

Lemma shr_exact (k q : positive) :
  SpecFloat.iter_pos shr_1 k {| shr_m := Zpos (Pos.iter xO q k); shr_r := false; shr_s := false |}
  = {| shr_m := Zpos q; shr_r := false; shr_s := false |}.
Proof.
  revert q. induction k as [k IH | k IH |]; intros q; simpl.
  - rewrite IH, IH. reflexivity.
  - rewrite IH, IH. reflexivity.
  - reflexivity.
Qed.

Lemma digits_bound (p : positive) :
  Zpos p < 2 ^ 53 -> Zpos (digits2_pos p) <= prec.
Proof.
  intros H. rewrite digits2_pos_log2. unfold prec.
  assert (Z.log2 (Zpos p) < 53) by (apply Z.log2_lt_pow2; lia). lia.
Qed.

(** Rounding a mantissa that denotes an integer below 2^53 loses nothing. *)
Lemma binary_round_aux_exact (s : bool) (M p : positive) (e : Z) :
  Zpos p < 2 ^ 53 ->
  e <= Zpos (digits2_pos p) - prec ->
  Zpos M = Zpos p * 2 ^ (- e) ->
  binary_round_aux prec emax s (Zpos M) e loc_Exact
  = S754_finite s (aligned p) (Zpos (digits2_pos p) - prec).
Proof.
  intros Hp He HM. pose proof (digits_bound p Hp) as HD.
  assert (H1 : 1 <= Zpos (digits2_pos p)) by lia.
  assert (HdM : Zpos (digits2_pos M) = Zpos (digits2_pos p) - e).
  { rewrite !digits2_pos_log2, HM.
    rewrite Z.log2_mul_pow2 by (pose proof (Z.log2_nonneg (Zpos p)); lia). lia. }
  assert (Hn : fexp prec emax (Zdigits2 (Zpos M) + e) - e
               = Zpos (digits2_pos p) - prec - e).
  { unfold Zdigits2. rewrite HdM. unfold fexp, emin. unfold prec, emax in *. lia. }
  assert (Hal : Zpos M = Zpos (aligned p) * 2 ^ (Zpos (digits2_pos p) - prec - e)).
  { rewrite HM, aligned_value by assumption.
    rewrite <- Z.mul_assoc, <- Z.pow_add_r by lia. f_equal. f_equal. lia. }
  assert (Hshr : shr_fexp prec emax (Zpos M) e loc_Exact
                 = ({| shr_m := Zpos (aligned p); shr_r := false; shr_s := false |},
                    Zpos (digits2_pos p) - prec)).
  { unfold shr_fexp. rewrite Hn. simpl shr_record_of_loc.
    destruct (Zpos (digits2_pos p) - prec - e) as [|n|n] eqn:En; [| |lia].
    - simpl. f_equal; [|lia]. f_equal. rewrite Hal. simpl. lia.
    - unfold shr. rewrite <- iter_xO_value in Hal. inversion Hal as [HMeq].
      rewrite shr_exact. f_equal. lia. }
  unfold binary_round_aux. rewrite Hshr.
  simpl shr_m. simpl loc_of_shr_record. simpl round_nearest_even.
  assert (Hshr2 : shr_fexp prec emax (Zpos (aligned p)) (Zpos (digits2_pos p) - prec)
                    loc_Exact
                  = ({| shr_m := Zpos (aligned p); shr_r := false; shr_s := false |},
                     Zpos (digits2_pos p) - prec)).
  { unfold shr_fexp, Zdigits2. rewrite aligned_digits by assumption.
    replace (fexp prec emax (prec + (Zpos (digits2_pos p) - prec))
             - (Zpos (digits2_pos p) - prec)) with 0
      by (unfold fexp, emin; unfold prec, emax in *; lia).
    reflexivity. }
  rewrite Hshr2. simpl shr_m.
  destruct (Zpos (digits2_pos p) - prec <=? emax - prec) eqn:E; [reflexivity|].
  unfold prec, emax in *. lia.
Qed.

Lemma Z2F_zero : Z2F 0 = zero.
Proof. reflexivity. Qed.

Lemma digits_mono (p q : positive) :
  Zpos p <= Zpos q -> Zpos (digits2_pos p) <= Zpos (digits2_pos q).
Proof.
  intros H. rewrite !digits2_pos_log2.
  assert (Z.log2 (Zpos p) <= Z.log2 (Zpos q)) by (apply Z.log2_le_mono; lia). lia.
Qed.

Lemma mul_exact_pos (p q : positive) :
  Zpos (p * q) < 2 ^ 53 ->
  (Z2F (Zpos p) * Z2F (Zpos q))%js = Z2F (Zpos (p * q)).
Proof.
  intros H.
  assert (Hp : Zpos p < 2 ^ 53) by nia.
  assert (Hq : Zpos q < 2 ^ 53) by nia.
  pose proof (digits_bound p Hp) as HDp. pose proof (digits_bound q Hq) as HDq.
  pose proof (digits_mono p (p * q) ltac:(nia)) as Hm.
  rewrite (Z2F_pos p), (Z2F_pos q), (Z2F_pos (p * q)) by (apply digits_bound; assumption).
  unfold mul, SFmul. simpl xorb.
  apply binary_round_aux_exact; [assumption | lia |].
  rewrite Pos2Z.inj_mul, !aligned_value by assumption.
  replace (- (Zpos (digits2_pos p) - prec + (Zpos (digits2_pos q) - prec)))
    with ((prec - Zpos (digits2_pos p)) + (prec - Zpos (digits2_pos q))) by lia.
  rewrite Z.pow_add_r by lia. rewrite Pos2Z.inj_mul. ring.
Qed.

Lemma shl_align_value (m : positive) (e e' : Z) :
  e' <= e -> Zpos (fst (shl_align m e e')) = Zpos m * 2 ^ (e - e').
Proof.
  intros H. unfold shl_align.
  destruct (e' - e) as [|d|d] eqn:E; simpl; try lia.
  - replace (e - e') with 0 by lia. simpl. lia.
  - rewrite iter_xO_value. f_equal. f_equal. lia.
Qed.

Lemma add_exact_pos (p q : positive) :
  Zpos (p + q) < 2 ^ 53 ->
  (Z2F (Zpos p) + Z2F (Zpos q))%js = Z2F (Zpos (p + q)).
Proof.
  intros H.
  assert (Hp : Zpos p < 2 ^ 53) by lia.
  assert (Hq : Zpos q < 2 ^ 53) by lia.
  pose proof (digits_bound p Hp) as HDp. pose proof (digits_bound q Hq) as HDq.
  pose proof (digits_bound (p + q) H) as HDs.
  pose proof (digits_mono p (p + q) ltac:(lia)) as Hmp.
  pose proof (digits_mono q (p + q) ltac:(lia)) as Hmq.
  assert (H1p : 1 <= Zpos (digits2_pos p)) by lia.
  assert (H1q : 1 <= Zpos (digits2_pos q)) by lia.
  rewrite (Z2F_pos p), (Z2F_pos q), (Z2F_pos (p + q)) by assumption.
  unfold add, SFadd. cbv zeta. simpl cond_Zopp.
  set (ez := Z.min (Zpos (digits2_pos p) - prec) (Zpos (digits2_pos q) - prec)).
  rewrite !shl_align_value by (unfold ez; lia).
  rewrite !aligned_value by assumption.
  assert (Hsum : Zpos p * 2 ^ (prec - Zpos (digits2_pos p))
                   * 2 ^ (Zpos (digits2_pos p) - prec - ez)
                 + Zpos q * 2 ^ (prec - Zpos (digits2_pos q))
                   * 2 ^ (Zpos (digits2_pos q) - prec - ez)
                 = Zpos (p + q) * 2 ^ (- ez)).
  { rewrite <- !Z.mul_assoc, <- !Z.pow_add_r by (unfold ez; lia).
    replace (prec - Zpos (digits2_pos p) + (Zpos (digits2_pos p) - prec - ez))
      with (- ez) by lia.
    replace (prec - Zpos (digits2_pos q) + (Zpos (digits2_pos q) - prec - ez))
      with (- ez) by lia.
    rewrite Pos2Z.inj_add. ring. }
  rewrite Hsum.
  assert (Hpos : 0 < Zpos (p + q) * 2 ^ (- ez)).
  { apply Z.mul_pos_pos; [lia|]. apply Z.pow_pos_nonneg; unfold ez; lia. }
  destruct (Zpos (p + q) * 2 ^ (- ez)) as [|M|M] eqn:HM; try lia.
  unfold binary_normalize, binary_round.
  assert (HdM : Zpos (digits2_pos M) = Zpos (digits2_pos (p + q)) - ez).
  { rewrite !digits2_pos_log2, <- HM.
    rewrite Z.log2_mul_pow2 by (pose proof (Z.log2_nonneg (Zpos (p + q))); unfold ez; lia).
    lia. }
  assert (Hal : shl_align M ez (fexp prec emax (Zpos (digits2_pos M) + ez)) = (M, ez)).
  { unfold shl_align. rewrite HdM.
    replace (fexp prec emax (Zpos (digits2_pos (p + q)) - ez + ez) - ez)
      with (Zpos (digits2_pos (p + q)) - prec - ez)
      by (unfold fexp, emin; unfold prec, emax in *; lia).
    destruct (Zpos (digits2_pos (p + q)) - prec - ez) eqn:E; try reflexivity.
    unfold ez in E. lia. }
  rewrite Hal.
  apply binary_round_aux_exact; [assumption | unfold ez; lia | symmetry; exact HM].
Qed.

(** Products and sums of integers that stay below 2^53 are exact. *)
Lemma mul_exact (a b : Z) :
  0 <= a -> 0 < b -> b < 2 ^ 53 -> a * b < 2 ^ 53 ->
  (Z2F a * Z2F b)%js = Z2F (a * b).
Proof.
  intros Ha Hb Hb' H.
  destruct b as [|q|q]; try lia.
  destruct a as [|p|p]; try lia.
  - rewrite (Z2F_pos q) by (apply digits_bound; assumption). reflexivity.
  - apply mul_exact_pos. exact H.
Qed.

Lemma add_exact (a d : Z) :
  0 <= a -> 0 <= d -> a + d < 2 ^ 53 ->
  (Z2F a + Z2F d)%js = Z2F (a + d).
Proof.
  intros Ha Hd H.
  destruct a as [|p|p]; try lia; destruct d as [|q|q]; try lia.
  - reflexivity.
  - rewrite Z.add_0_l, (Z2F_pos q) by (apply digits_bound; lia). reflexivity.
  - rewrite Z.add_0_r, (Z2F_pos p) by (apply digits_bound; lia). reflexivity.
  - apply add_exact_pos. exact H.
Qed.

Lemma F2Z_Z2F (v : Z) : 0 <= v < 2 ^ 53 -> F2Z (Z2F v) = Some v.
Proof.
  intros [H0 H]. destruct v as [|p|p]; try lia; [reflexivity|].
  pose proof (digits_bound p H) as HD.
  rewrite (Z2F_pos p) by assumption. unfold F2Z.
  pose proof (aligned_value p HD) as Hal.
  destruct (Z.leb_spec 0 (Zpos (digits2_pos p) - prec)) as [Hz|Hneg].
  - replace (Zpos (digits2_pos p) - prec) with 0 by lia.
    replace (prec - Zpos (digits2_pos p)) with 0 in Hal by lia.
    simpl. f_equal. simpl in Hal. lia.
  - replace (- (Zpos (digits2_pos p) - prec)) with (prec - Zpos (digits2_pos p)) by lia.
    rewrite Hal.
    rewrite Z.mod_mul by (apply Z.pow_nonzero; lia).
    rewrite Z.div_mul by (apply Z.pow_nonzero; lia). reflexivity.
Qed.

End ExactIntegers.

(** ** Conversion of values below 2^53 *)

Section ExactConversion.

Lemma positional_fold (b : Z) (s : string) :
  positional b s = fold_left (digit_step b) (chars s) 0.
Proof. reflexivity. Qed.

Lemma digit_step_grows (b : Z) (l : list ascii) :
  1 <= b -> forall a, 0 <= a -> a <= fold_left (digit_step b) l a.
Proof.
  intros Hb. induction l as [|c l IH]; intros a Ha; simpl; [lia|].
  assert (Hd : 0 <= default 0 (parse_digit c)).
  { destruct (parse_digit c) as [d|] eqn:E; simpl; [|lia].
    apply parse_digit_range in E. lia. }
  etransitivity; [|apply IH; unfold digit_step; nia].
  unfold digit_step. nia.
Qed.

(** While the value stays below 2^53, the loop computes it exactly. *)
Lemma accumulate_exact (b : Z) (l : list ascii) :
  2 <= b <= 36 ->
  forallb (valid_digit b) l = true ->
  forall a, 0 <= a -> fold_left (digit_step b) l a < 2 ^ 53 ->
    fold_left (accumulate (Z2F b)) l (Z2F a) = Z2F (fold_left (digit_step b) l a).
Proof.
  intros Hb. induction l as [|c l IH]; intros Hv a Ha Hlt; simpl; [reflexivity|].
  simpl in Hv. apply andb_prop in Hv as [Hc Hv].
  unfold valid_digit in Hc.
  destruct (parse_digit c) as [d|] eqn:Hd; [|discriminate Hc].
  pose proof (parse_digit_range _ _ Hd) as Hr.
  simpl in Hlt.
  assert (Hstep : 0 <= digit_step b a c) by (unfold digit_step; rewrite Hd; simpl; nia).
  pose proof (digit_step_grows b l ltac:(lia) _ Hstep) as Hgrow.
  assert (Hacc : accumulate (Z2F b) (Z2F a) c = Z2F (digit_step b a c)).
  { unfold accumulate, digit_step in *. rewrite indexOf_digits, Hd in *. simpl in *.
    rewrite mul_exact by nia. apply add_exact; nia. }
  rewrite Hacc. apply IH; assumption.
Qed.

Lemma convertToDecimal_exact (b : Z) (value : string) :
  2 <= b <= 36 ->
  valid_in_base b value = true ->
  positional b value < 2 ^ 53 ->
  returns_integer (convertToDecimal value (Z2F b)) (positional b value).
Proof.
  intros Hb Hv Hlt. unfold convertToDecimal.
  rewrite convert_loop_unfold by assumption.
  apply find_invalid_none in Hv as Hnone. rewrite Hnone.
  eexists. split; [reflexivity|].
  change zero with (Z2F 0). rewrite positional_fold in *.
  rewrite accumulate_exact; try assumption; try lia.
  apply F2Z_Z2F. split; [|assumption].
  apply (digit_step_grows b (chars value)); lia.
Qed.

Lemma parse_digit_char (d : Z) :
  0 <= d < 36 -> parse_digit (digit_char d) = Some d.
Proof.
  intros Hd.
  assert (Hall : forallb (fun d' =>
             match parse_digit (digit_char d') with
             | Some x => x =? d'
             | None => false
             end) (seqZ 0 36) = true) by (vm_compute; reflexivity).
  rewrite forallb_forall in Hall.
  specialize (Hall d ltac:(apply list_elem_of_In, elem_of_seqZ; lia)).
  destruct (parse_digit (digit_char d)) as [x|]; [|discriminate Hall].
  f_equal. lia.
Qed.

Lemma render_loop_value (b : Z) (fuel : nat) :
  2 <= b <= 36 ->
  forall (v : Z) (acc : string),
    0 <= v < 2 ^ Z.of_nat fuel ->
    fold_left (digit_step b) (chars (render_loop fuel b v acc)) 0
    = fold_left (digit_step b) (chars acc) v.
Proof.
  intros Hb. induction fuel as [|fuel IH]; intros v acc Hv.
  - simpl in *. replace v with 0 by lia. reflexivity.
  - cbn [render_loop].
    assert (Hmod : 0 <= v mod b < b) by (apply Z.mod_pos_bound; lia).
    assert (Hdig : parse_digit (digit_char (v mod b)) = Some (v mod b))
      by (apply parse_digit_char; lia).
    assert (Hdiv : v = b * (v / b) + v mod b) by (apply Z.div_mod; lia).
    destruct (Z.eqb_spec (v / b) 0) as [Hz|Hnz].
    + simpl. unfold digit_step at 2. rewrite Hdig. simpl. f_equal. lia.
    + rewrite IH.
      * simpl. unfold digit_step at 2. rewrite Hdig. simpl. f_equal. lia.
      * rewrite Nat2Z.inj_succ, Z.pow_succ_r in Hv by lia.
        split; [apply Z.div_pos; lia|].
        apply Z.div_lt_upper_bound; nia.
Qed.

Lemma render_loop_valid (b : Z) (fuel : nat) :
  2 <= b <= 36 ->
  forall (v : Z) (acc : string),
    0 <= v ->
    forallb (valid_digit b) (chars acc) = true ->
    forallb (valid_digit b) (chars (render_loop fuel b v acc)) = true.
Proof.
  intros Hb. induction fuel as [|fuel IH]; intros v acc Hv Hacc; [exact Hacc|].
  cbn [render_loop].
  assert (Hmod : 0 <= v mod b < b) by (apply Z.mod_pos_bound; lia).
  assert (Hnew : forallb (valid_digit b)
                   (chars (String (digit_char (v mod b)) acc)) = true).
  { simpl. rewrite Hacc, andb_true_r. unfold valid_digit.
    rewrite parse_digit_char by lia. lia. }
  destruct (v / b =? 0); [exact Hnew|].
  apply IH; [apply Z.div_pos; lia | exact Hnew].
Qed.

Lemma render_positional (b v : Z) :
  2 <= b <= 36 -> 0 <= v ->
  valid_in_base b (render b v) = true /\ positional b (render b v) = v.
Proof.
  intros Hb Hv. unfold render, valid_in_base. split.
  - apply render_loop_valid; [assumption | assumption | reflexivity].
  - rewrite positional_fold, render_loop_value; [reflexivity | assumption |].
    split; [assumption|].
    rewrite Nat2Z.inj_succ, Z2Nat.id by apply Z.log2_nonneg.
    destruct (Z.eq_dec v 0) as [->|Hnz]; [reflexivity|].
    apply Z.log2_spec. lia.
Qed.

End ExactConversion.

(** ** Exactness of the arithmetic *)

Section Exactness.

(** C2: below 2^53 the conversion is exact, for every base of 2..36 and
    every string of valid digits; above, it is not.  The value
    "aed7015a346d635" of base 15, an entry of the script's own second
    test case, denotes 320923294898495900, and [convertToDecimal] returns
    the Number 320923294898495936.  The two small conversions of the claim
    hold. *)
Theorem convertToDecimal_exact_below_2_53_only :
  (forall (b : Z) (value : string),
      2 <= b <= 36 ->
      valid_in_base b value = true ->
      positional b value < 2 ^ 53 ->
      returns_integer (convertToDecimal value (Z2F b)) (positional b value))
  /\ entries testCase2 !! 2 = Some (entry "15" "aed7015a346d635")
  /\ valid_in_base 15 "aed7015a346d635" = true
  /\ positional 15 "aed7015a346d635" = 320923294898495900
  /\ returns_integer (convertToDecimal "aed7015a346d635" (parseInt "15" None))
                     320923294898495936
  /\ ~ returns_integer (convertToDecimal "aed7015a346d635" (parseInt "15" None))
                       (positional 15 "aed7015a346d635")
  /\ returns_integer (convertToDecimal "111" (Z2F 2)) 7
  /\ returns_integer (convertToDecimal "213" (Z2F 4)) 39.
Proof.
  split; [exact convertToDecimal_exact|].
  split; [vm_compute; reflexivity|].
  split; [vm_compute; reflexivity|].
  split; [vm_compute; reflexivity|].
  split; [eexists; split; vm_compute; reflexivity|].
  split; [|split; eexists; split; vm_compute; reflexivity].
  intros (r & Hr & Hz). vm_compute in Hr. inversion Hr; subst r.
  vm_compute in Hz. discriminate Hz.
Qed.

Lemma convertToDecimal_exact_below_2_53_only_witness :
  2 <= 4 <= 36
  /\ valid_in_base 4 "213" = true
  /\ positional 4 "213" < 2 ^ 53
  /\ returns_integer (convertToDecimal "213" (Z2F 4)) (positional 4 "213").
Proof.
  split; [lia|]. split; [reflexivity|]. split; [reflexivity|].
  apply (proj1 convertToDecimal_exact_below_2_53_only 4 "213");
    [lia | reflexivity | reflexivity].
Defined.

(** C8: rendering an integer 0 <= v < 2^53 in a base of 2..36 and
    converting the numeral back yields v; at v = 2^53 + 1 and base 10 the
    numeral has only valid digits and the conversion returns 2^53. *)
Theorem render_convert_round_trip_below_2_53_only :
  (forall b v : Z,
      2 <= b <= 36 -> 0 <= v < 2 ^ 53 ->
      returns_integer (convertToDecimal (render b v) (Z2F b)) v)
  /\ render 10 9007199254740993 = "9007199254740993"
  /\ valid_in_base 10 (render 10 9007199254740993) = true
  /\ positional 10 (render 10 9007199254740993) = 9007199254740993
  /\ returns_integer (convertToDecimal (render 10 9007199254740993) (Z2F 10))
                     9007199254740992
  /\ ~ returns_integer (convertToDecimal (render 10 9007199254740993) (Z2F 10))
                       9007199254740993.
Proof.
  split.
  { intros b v Hb Hv.
    destruct (render_positional b v Hb ltac:(lia)) as [Hvalid Hpos].
    rewrite <- Hpos at 2.
    apply convertToDecimal_exact; [assumption | assumption | lia]. }
  split; [vm_compute; reflexivity|].
  split; [vm_compute; reflexivity|].
  split; [vm_compute; reflexivity|].
  split; [eexists; split; vm_compute; reflexivity|].
  intros (r & Hr & Hz). vm_compute in Hr. inversion Hr; subst r.
  vm_compute in Hz. discriminate Hz.
Qed.

Lemma render_convert_round_trip_below_2_53_only_witness :
  2 <= 16 <= 36 /\ 0 <= 255 < 2 ^ 53
  /\ returns_integer (convertToDecimal (render 16 255) (Z2F 16)) 255.
Proof.
  split; [lia|]. split; [lia|].
  apply (proj1 render_convert_round_trip_below_2_53_only 16 255); lia.
Defined.

(** C1 at the line f(x) = 1 + 10^15 x sampled at 2, 3 and 4: the three
    ordinates are Numbers, the abscissae are distinct, f(0) = 1, and
    [lagrangeInterpolation] returns 2.  On the points (1,4), (2,7),
    (3,12) of the claim it returns 3. *)
Theorem lagrangeInterpolation_inexact_on_line :
  let f := [1; 10 ^ 15] in
  let points := map (sample f) [2; 3; 4] in
  Forall (fun x => F2Z (Z2F (poly_eval f x)) = Some (poly_eval f x)) [2; 3; 4]
  /\ NoDup (map fst points)
  /\ poly_eval f 0 = 1
  /\ returns_integer (lagrangeInterpolation points 3) 2
  /\ ~ returns_integer (lagrangeInterpolation points 3) (poly_eval f 0)
  /\ returns_integer
       (lagrangeInterpolation [(Z2F 1, Z2F 4); (Z2F 2, Z2F 7); (Z2F 3, Z2F 12)] 3) 3.
Proof.
  cbv zeta.
  split; [repeat constructor|].
  split.
  { vm_compute. repeat constructor; rewrite ?list_elem_of_In; simpl;
      intros H; repeat destruct H as [H|H]; try discriminate H; exact H. }
  split; [reflexivity|].
  split; [eexists; split; vm_compute; reflexivity|].
  split; [|eexists; split; vm_compute; reflexivity].
  intros (r & Hr & Hz). vm_compute in Hr. inversion Hr; subst r.
  vm_compute in Hz. discriminate Hz.
Qed.

(** C3 at the same line, given as an input with the keys 2, 3 and 4: the
    three entries are valid, [solveShamirSecretSharing] returns the
    secret 2 and [solvePolynomial] returns 1. *)
Theorem solvers_disagree_on_line :
  valid_entries line_input
  /\ present_keys line_input = [2; 3; 4]
  /\ (exists sol, solveShamirSecretSharing line_input = Normal sol
                  /\ secret sol = Z2F 2)
  /\ solvePolynomial line_input = Some (Z2F 1).
Proof.
  split.
  { intros i e Hi He. simpl in Hi.
    assert (Hcases : i = 1 \/ i = 2 \/ i = 3 \/ i = 4) by lia.
    destruct Hcases as [-> | [-> | [-> | ->]]]; vm_compute in He;
      try discriminate He; inversion He; subst e;
      (exists 10; split; [lia|split; vm_compute; reflexivity]). }
  split; [vm_compute; reflexivity|].
  split; [eexists; split; vm_compute; reflexivity|].
  vm_compute; reflexivity.
Qed.

End Exactness.

(** ** Duplicate abscissae *)

Section DuplicateAbscissa.

Lemma nonfinite_mul_l (a b : number) :
  nonfinite a = true -> nonfinite (a * b)%js = true.
Proof. destruct a, b; simpl; intros H; try discriminate H; reflexivity. Qed.

Lemma nonfinite_mul_r (a b : number) :
  nonfinite b = true -> nonfinite (a * b)%js = true.
Proof. destruct a, b; simpl; intros H; try discriminate H; reflexivity. Qed.

Lemma nonfinite_add_l (a b : number) :
  nonfinite a = true -> nonfinite (a + b)%js = true.
Proof.
  destruct a as [| [] | |], b as [| [] | |]; simpl; intros H;
    try discriminate H; reflexivity.
Qed.

Lemma nonfinite_add_r (a b : number) :
  nonfinite b = true -> nonfinite (a + b)%js = true.
Proof.
  destruct a as [| [] | |], b as [| [] | |]; simpl; intros H;
    try discriminate H; reflexivity.
Qed.

Lemma sub_self_finite (s : bool) (m : positive) (e : Z) :
  (S754_finite s m e - S754_finite s m e)%js = S754_zero false.
Proof.
  unfold sub, SFsub. cbv zeta. rewrite Z.sub_diag. reflexivity.
Qed.

(** The factor (0 - xj) / (xi - xj) of the basis when xi = xj: a division
    by zero. *)
Lemma factor_same_abscissa (x : number) :
  nonfinite ((zero - x) / (x - x))%js = true.
Proof.
  destruct x as [[] | [] | | s m e]; try reflexivity.
  rewrite sub_self_finite. reflexivity.
Qed.

Lemma basis_fold_absorbs (sel : list point) (i : nat) (l : list nat) (acc : number) :
  nonfinite acc = true ->
  nonfinite
    (fold_left
       (fun basisValue j =>
          if (i =? j)%nat then basisValue
          else (basisValue
                * ((zero - fst (at_index sel j))
                   / (fst (at_index sel i) - fst (at_index sel j))))%js)
       l acc) = true.
Proof.
  revert acc. induction l as [|j l IH]; intros acc Hacc; simpl; [exact Hacc|].
  apply IH. destruct (i =? j)%nat; [exact Hacc|].
  apply nonfinite_mul_l, Hacc.
Qed.

Lemma basis_fold_duplicate (sel : list point) (i j : nat) (l : list nat)
    (acc : number) :
  In j l -> i <> j ->
  fst (at_index sel i) = fst (at_index sel j) ->
  nonfinite
    (fold_left
       (fun basisValue j =>
          if (i =? j)%nat then basisValue
          else (basisValue
                * ((zero - fst (at_index sel j))
                   / (fst (at_index sel i) - fst (at_index sel j))))%js)
       l acc) = true.
Proof.
  intros Hin Hne Hx. revert acc.
  induction l as [|j' l IH]; intros acc; simpl; [destruct Hin|].
  destruct Hin as [-> | Hin]; [|apply IH, Hin].
  apply basis_fold_absorbs.
  destruct (Nat.eqb_spec i j) as [Heq|_]; [contradiction|].
  apply nonfinite_mul_r. rewrite Hx. apply factor_same_abscissa.
Qed.

Lemma basis_duplicate (sel : list point) (i j : nat) :
  (j < length sel)%nat -> i <> j ->
  fst (at_index sel i) = fst (at_index sel j) ->
  nonfinite (basis sel i) = true.
Proof.
  intros Hj Hne Hx. unfold basis.
  apply basis_fold_duplicate with (j := j); try assumption.
  apply in_seq. lia.
Qed.

Lemma sum_fold_absorbs (sel : list point) (l : list nat) (acc : number) :
  nonfinite acc = true ->
  nonfinite
    (fold_left
       (fun secret i => (secret + snd (at_index sel i) * basis sel i)%js)
       l acc) = true.
Proof.
  revert acc. induction l as [|i l IH]; intros acc Hacc; simpl; [exact Hacc|].
  apply IH, nonfinite_add_l, Hacc.
Qed.

Lemma sum_fold_nonfinite_term (sel : list point) (i : nat) (l : list nat)
    (acc : number) :
  In i l -> nonfinite (basis sel i) = true ->
  nonfinite
    (fold_left
       (fun secret i => (secret + snd (at_index sel i) * basis sel i)%js)
       l acc) = true.
Proof.
  intros Hin Hb. revert acc.
  induction l as [|i' l IH]; intros acc; simpl; [destruct Hin|].
  destruct Hin as [-> | Hin]; [|apply IH, Hin].
  apply sum_fold_absorbs, nonfinite_add_r, nonfinite_mul_r, Hb.
Qed.

Lemma Math_round_nonfinite (x : number) :
  nonfinite x = true -> nonfinite (Math_round x) = true.
Proof. destruct x; simpl; intros H; try discriminate H; reflexivity. Qed.

Lemma lagrange_sum_duplicate (sel : list point) :
  duplicate_abscissa sel -> nonfinite (lagrange_sum sel) = true.
Proof.
  intros (i & j & Hij & Hx). unfold lagrange_sum.
  apply sum_fold_nonfinite_term with (i := i).
  - apply in_seq. lia.
  - apply basis_duplicate with (j := j); [lia | lia | exact Hx].
Qed.

(** C4, as stated, fails: with the two points (1,4) and (1,7) the call
    raises nothing. *)
Lemma lagrangeInterpolation_duplicate_no_error :
  ~ (duplicate_abscissa (slice0 [(Z2F 1, Z2F 4); (Z2F 1, Z2F 7)] 2) ->
     exists e, lagrangeInterpolation [(Z2F 1, Z2F 4); (Z2F 1, Z2F 7)] 2 = Throw e).
Proof.
  intros H. destruct H as [e He]; [|discriminate He].
  exists 0%nat, 1%nat. split; [simpl; lia | reflexivity].
Qed.

(** C4, amended: when two of the first [k] points have the same
    abscissa, [lagrangeInterpolation] raises no error and returns NaN or
    an infinity, never a finite Number.  The linear-system form has no
    error path either: on the points (1,4), (1,7) it yields -Infinity. *)
Theorem lagrangeInterpolation_duplicate_nonfinite :
  (forall (points : list point) (k : Z),
      duplicate_abscissa (slice0 points k) ->
      exists r, lagrangeInterpolation points k = Normal r /\ nonfinite r = true)
  /\ solve_points [(Z2F 1, Z2F 4); (Z2F 1, Z2F 7)] 2 = Some (S754_infinity true).
Proof.
  split; [|vm_compute; reflexivity].
  intros points k Hdup. eexists. split; [reflexivity|].
  apply Math_round_nonfinite, lagrange_sum_duplicate, Hdup.
Qed.

Lemma lagrangeInterpolation_duplicate_nonfinite_witness :
  duplicate_abscissa (slice0 [(Z2F 1, Z2F 4); (Z2F 1, Z2F 7); (Z2F 3, Z2F 12)] 3)
  /\ exists r,
      lagrangeInterpolation [(Z2F 1, Z2F 4); (Z2F 1, Z2F 7); (Z2F 3, Z2F 12)] 3
      = Normal r /\ nonfinite r = true.
Proof.
  assert (Hdup : duplicate_abscissa
                   (slice0 [(Z2F 1, Z2F 4); (Z2F 1, Z2F 7); (Z2F 3, Z2F 12)] 3)).
  { exists 0%nat, 1%nat. split; [simpl; lia | reflexivity]. }
  split; [exact Hdup|].
  exact (proj1 lagrangeInterpolation_duplicate_nonfinite _ 3 Hdup).
Defined.

End DuplicateAbscissa.

(** ** Point extraction *)

Section PointExtraction.

Lemma seqZ_step (i : Z) (fuel : nat) :
  seqZ i (Z.of_nat (S fuel)) = i :: seqZ (i + 1) (Z.of_nat fuel).
Proof.
  rewrite seqZ_cons by lia. f_equal. f_equal; lia.
Qed.

Lemma present_keys_fuel (td : TestData) :
  present_keys td =
    filter (fun i => is_Some (entries td !! i))
           (seqZ 1 (Z.of_nat (Z.to_nat (keys_n td)))).
Proof.
  unfold present_keys. f_equal. unfold seqZ. rewrite Nat2Z.id. reflexivity.
Qed.

(** What the loop of [parseTestCase] pushes, when it completes. *)
Lemma parse_loop_points (td : TestData) (fuel : nat) :
  forall (i : Z) (points res : list point),
    parse_loop td fuel i points = Normal res ->
    exists ys, res = points ++ ys
               /\ Forall2 (decoded_at td)
                    (filter (fun i => is_Some (entries td !! i))
                            (seqZ i (Z.of_nat fuel))) ys.
Proof.
  induction fuel as [|fuel IH]; intros i points res H.
  - simpl in H. inversion H; subst. exists []. rewrite app_nil_r.
    split; [reflexivity | constructor].
  - rewrite seqZ_step, filter_cons. simpl in H.
    destruct (entries td !! i) as [e|] eqn:He.
    + destruct (convertToDecimal (value e) (parseInt (base e) None))
        as [y|err] eqn:Hy; simpl in H; [|discriminate H].
      apply IH in H as (ys & -> & Hys).
      exists ((Z2F i, y) :: ys). rewrite <- app_assoc.
      split; [reflexivity|].
      destruct (decide (is_Some (Some e))) as [_|Hn]; [|destruct Hn; eauto].
      constructor; [|exact Hys]. exists e. auto.
    + apply IH in H as (ys & -> & Hys). exists ys.
      split; [reflexivity|].
      destruct (decide (is_Some (@None EncodedPoint))) as [Hs|_];
        [destruct Hs; discriminate | exact Hys].
Qed.

(** The loop completes when the entries it meets are valid. *)
Lemma parse_loop_completes (td : TestData) (fuel : nat) :
  forall (i : Z) (points : list point),
    (forall j e, i <= j < i + Z.of_nat fuel ->
                 entries td !! j = Some e -> valid_entry e) ->
    exists res, parse_loop td fuel i points = Normal res.
Proof.
  induction fuel as [|fuel IH]; intros i points Hvalid; simpl; [eauto|].
  destruct (entries td !! i) as [e|] eqn:He.
  - destruct (valid_entry_decodes e) as [y Hy]; [apply (Hvalid i); [lia | exact He]|].
    rewrite Hy. simpl. apply IH. intros j e' Hj. apply Hvalid. lia.
  - apply IH. intros j e' Hj. apply Hvalid. lia.
Qed.

Lemma parseTestCase_points (td : TestData) (parsed : Parsed) :
  parseTestCase td = Normal parsed ->
  parsed_k parsed = keys_k td
  /\ totalPointsFound parsed = Z.of_nat (length (parsed_points parsed))
  /\ Forall2 (decoded_at td) (present_keys td) (parsed_points parsed).
Proof.
  unfold parseTestCase. intros H.
  destruct (parse_loop td (Z.to_nat (keys_n td)) 1 []) as [points|err] eqn:Hl;
    simpl in H; [|discriminate H].
  inversion H; subst; simpl.
  apply parse_loop_points in Hl as (ys & -> & Hys).
  rewrite present_keys_fuel. auto.
Qed.

Lemma parseTestCase_completes (td : TestData) :
  valid_entries td -> exists parsed, parseTestCase td = Normal parsed.
Proof.
  intros Hvalid. unfold parseTestCase.
  destruct (parse_loop_completes td (Z.to_nat (keys_n td)) 1 []) as [res Hres].
  - intros j e Hj. apply Hvalid. lia.
  - rewrite Hres. simpl. eauto.
Qed.

(** The loop of [solvePolynomial]: it stops at [k] points. *)
Lemma extract_loop_take (td : TestData) (fuel : nat) :
  forall (idx : Z) (points : list point),
    idx + Z.of_nat fuel = keys_n td + 1 ->
    (length points <= Z.to_nat (keys_k td))%nat ->
    extract_loop td fuel idx points =
      take (Z.to_nat (keys_k td))
           (points ++ map (linear_point td)
                        (filter (fun i => is_Some (entries td !! i))
                                (seqZ idx (Z.of_nat fuel)))).
Proof.
  induction fuel as [|fuel IH]; intros idx points Hidx Hlen.
  - simpl. rewrite app_nil_r, take_ge by lia. reflexivity.
  - cbn [extract_loop].
    destruct (Z.of_nat (length points) <? keys_k td) eqn:Hk.
    + assert (Hn : (idx <=? keys_n td) = true) by lia. rewrite Hn. simpl andb.
      cbv iota. rewrite seqZ_step, filter_cons.
      destruct (entries td !! idx) as [e|] eqn:He.
      * destruct (decide (is_Some (Some e))) as [_|Hno]; [|destruct Hno; eauto].
        rewrite IH; [| lia | rewrite length_app; simpl; lia].
        rewrite <- app_assoc. simpl. unfold linear_point at 2. rewrite He.
        reflexivity.
      * destruct (decide (is_Some (@None EncodedPoint))) as [Hs|_];
          [destruct Hs; discriminate|].
        apply IH; [lia | exact Hlen].
    + simpl andb. cbv iota.
      rewrite take_app_le by lia. rewrite take_ge by lia. reflexivity.
Qed.

Lemma extract_points_take (td : TestData) :
  extract_points td =
    take (Z.to_nat (keys_k td)) (map (linear_point td) (present_keys td)).
Proof.
  unfold extract_points. rewrite present_keys_fuel.
  destruct (Z_le_gt_dec 0 (keys_n td)) as [Hn|Hn].
  - rewrite extract_loop_take; [reflexivity | lia | simpl; lia].
  - replace (Z.to_nat (keys_n td)) with 0%nat by lia. simpl.
    rewrite take_nil. reflexivity.
Qed.

Lemma seqZ_sorted (fuel : nat) :
  forall m, StronglySorted Z.lt (seqZ m (Z.of_nat fuel)).
Proof.
  induction fuel as [|fuel IH]; intros m.
  - rewrite seqZ_nil by lia. constructor.
  - rewrite seqZ_step. constructor; [apply IH|].
    apply Forall_forall. intros x Hx. apply elem_of_seqZ in Hx. lia.
Qed.

Lemma filter_sorted {A} (R : A -> A -> Prop) (P : A -> Prop)
    `{forall x, Decision (P x)} (l : list A) :
  StronglySorted R l -> StronglySorted R (filter P l).
Proof.
  induction 1 as [|x l Hl IH Hx]; [constructor|].
  rewrite filter_cons. destruct (decide (P x)); [|exact IH].
  constructor; [exact IH|].
  apply Forall_forall. intros y Hy. apply list_elem_of_filter in Hy as [_ Hy].
  rewrite Forall_forall in Hx. apply Hx, Hy.
Qed.

Lemma present_keys_sorted (td : TestData) :
  StronglySorted Z.lt (present_keys td).
Proof.
  rewrite present_keys_fuel. apply filter_sorted, seqZ_sorted.
Qed.

Lemma present_keys_range (td : TestData) (i : Z) :
  i ∈ present_keys td -> 1 <= i <= keys_n td /\ is_Some (entries td !! i).
Proof.
  unfold present_keys. intros Hi.
  apply list_elem_of_filter in Hi as [Hs Hi]. apply elem_of_seqZ in Hi.
  split; [lia | exact Hs].
Qed.

End PointExtraction.

(** ** The pipeline of answer.js and the extraction of solvepolynomial.js *)

Section Pipeline.

Lemma decoded_abscissae (td : TestData) (keys : list Z) (points : list point) :
  Forall2 (decoded_at td) keys points -> map fst points = map Z2F keys.
Proof.
  induction 1 as [|i pt keys points (e & _ & Hx & _) _ IH]; simpl;
    [reflexivity | congruence].
Qed.

Lemma Z2F_sorted (keys : list Z) :
  StronglySorted Z.lt keys ->
  Forall (fun i => 0 < i < 2 ^ 53) keys ->
  StronglySorted (fun x y => SFltb x y = true) (map Z2F keys).
Proof.
  induction 1 as [|i keys Hs IH Hi]; intros Hb; simpl; [constructor|].
  apply Forall_cons in Hb as [Hbi Hb].
  constructor; [apply IH, Hb|].
  apply Forall_forall. intros x Hx. apply list_elem_of_fmap in Hx as (j & -> & Hj).
  rewrite Forall_forall in Hi, Hb.
  specialize (Hi j Hj). specialize (Hb j Hj). apply Z2F_lt; lia.
Qed.

Lemma sorted_lookup {A} (R : A -> A -> Prop) (l : list A) :
  StronglySorted R l ->
  forall (i j : nat) (x y : A),
    (i < j)%nat -> l !! i = Some x -> l !! j = Some y -> R x y.
Proof.
  induction 1 as [|a l Hs IH Ha]; intros i j x y Hij Hi Hj; [discriminate Hi|].
  destruct j as [|j]; [lia|]. simpl in Hj.
  destruct i as [|i]; simpl in Hi.
  - inversion Hi; subst. rewrite Forall_forall in Ha.
    apply Ha, list_elem_of_lookup. eauto.
  - apply (IH i j); [lia | assumption | assumption].
Qed.

Lemma ascending_take (points : list point) (m : nat) :
  ascending points -> ascending (take m points).
Proof.
  unfold ascending. intros H.
  change (map fst (take m points)) with (fst <$> take m points).
  change (map fst points) with (fst <$> points) in H.
  rewrite fmap_take.
  rewrite <- (take_drop m (fst <$> points)) in H.
  apply StronglySorted_app_1_l in H. exact H.
Qed.

Lemma ascending_slice0 (points : list point) (k : Z) :
  ascending points -> ascending (slice0 points k).
Proof. unfold slice0. destruct (k <? 0); apply ascending_take. Qed.

Lemma ascending_no_duplicate (sel : list point) :
  ascending sel -> ~ duplicate_abscissa sel.
Proof.
  intros Hasc (i & j & Hij & Hx). unfold at_index in Hx.
  destruct (lookup_lt_is_Some_2 sel i) as [p Hp]; [lia|].
  destruct (lookup_lt_is_Some_2 sel j) as [q Hq]; [lia|].
  rewrite (nth_lookup_Some _ _ _ _ Hp), (nth_lookup_Some _ _ _ _ Hq) in Hx.
  assert (Hlt : SFltb (fst p) (fst q) = true).
  { apply (sorted_lookup _ _ Hasc i j); [lia| |].
    - change (map fst sel) with (fst <$> sel).
      rewrite list_lookup_fmap. unfold point in *. rewrite Hp. reflexivity.
    - change (map fst sel) with (fst <$> sel).
      rewrite list_lookup_fmap. unfold point in *. rewrite Hq. reflexivity. }
  rewrite Hx, SFltb_irrefl in Hlt. discriminate Hlt.
Qed.

Lemma ascending_NoDup (sel : list point) :
  ascending sel -> NoDup (map fst sel).
Proof.
  unfold ascending. generalize (map fst sel) as xs.
  induction 1 as [|x xs Hs IH Hx]; constructor; [|exact IH].
  intros Hin. rewrite Forall_forall in Hx. apply Hx in Hin.
  rewrite SFltb_irrefl in Hin. discriminate Hin.
Qed.

(** C5: when every entry under a key of 1..n is a valid encoded point
    and fewer than k keys of 1..n have one, [solveShamirSecretSharing]
    throws [InsufficientPoints] with needed = k and found = the number of
    those keys, and returns no result; with k = 7 and five entries it
    throws [InsufficientPoints 7 5]. *)
Theorem solve_insufficient_points :
  (forall td : TestData,
      valid_entries td ->
      Z.of_nat (length (present_keys td)) < keys_k td ->
      solveShamirSecretSharing td =
        Throw (InsufficientPoints (keys_k td)
                                  (Z.of_nat (length (present_keys td)))))
  /\ solveShamirSecretSharing short_input = Throw (InsufficientPoints 7 5).
Proof.
  split; [|vm_compute; reflexivity].
  intros td Hvalid Hfew.
  destruct (parseTestCase_completes td Hvalid) as [parsed Hparsed].
  destruct (parseTestCase_points td parsed Hparsed) as (Hk & Hfound & Hpts).
  apply Forall2_length in Hpts.
  unfold solveShamirSecretSharing. rewrite Hparsed. simpl.
  rewrite Hk, Hfound, <- Hpts.
  destruct (Z.ltb_spec (Z.of_nat (length (present_keys td))) (keys_k td));
    [reflexivity | lia].
Qed.

Lemma short_input_valid : valid_entries short_input.
Proof.
  intros i e Hi He. simpl in Hi.
  assert (Hcases : In i (seqZ 1 10)) by (apply list_elem_of_In, elem_of_seqZ; lia).
  vm_compute in Hcases.
  repeat (destruct Hcases as [<- | Hcases];
          [vm_compute in He; try discriminate He; inversion He; subst e|]);
    [exists 10 | exists 2 | exists 10 | exists 16 | exists 4 | destruct Hcases];
    (split; [lia | split; vm_compute; reflexivity]).
Defined.

Lemma solve_insufficient_points_witness :
  valid_entries short_input
  /\ Z.of_nat (length (present_keys short_input)) < keys_k short_input
  /\ solveShamirSecretSharing short_input =
       Throw (InsufficientPoints (keys_k short_input)
                (Z.of_nat (length (present_keys short_input)))).
Proof.
  split; [exact short_input_valid|].
  split; [vm_compute; reflexivity|].
  apply (proj1 solve_insufficient_points short_input).
  - exact short_input_valid.
  - vm_compute; reflexivity.
Defined.

Lemma solve_selected (td : TestData) (sol : Solution) :
  0 <= keys_k td ->
  solveShamirSecretSharing td = Normal sol ->
  exists parsed,
    parseTestCase td = Normal parsed
    /\ (Z.to_nat (keys_k td) <= length (parsed_points parsed))%nat
    /\ secret sol =
         Math_round (lagrange_sum (take (Z.to_nat (keys_k td)) (parsed_points parsed))).
Proof.
  intros Hk H. unfold solveShamirSecretSharing in H.
  destruct (parseTestCase td) as [parsed|err] eqn:Hparsed; simpl in H;
    [|discriminate H].
  destruct (parseTestCase_points td parsed Hparsed) as (Hpk & Hfound & _).
  rewrite Hpk, Hfound in H.
  destruct (Z.ltb_spec (Z.of_nat (length (parsed_points parsed))) (keys_k td))
    as [|Hge]; [discriminate H|].
  unfold lagrangeInterpolation, slice0 in H.
  destruct (Z.ltb_spec (keys_k td) 0); [lia|].
  simpl in H. inversion H; subst; simpl.
  exists parsed. split; [reflexivity|]. split; [lia | reflexivity].
Qed.

(** C6: the points of [parseTestCase] are the points of the keys of 1..n
    that have an entry, in ascending order of the keys, each with its key
    as abscissa and the decoded value as ordinate; a solve that returns
    has used exactly the first k of them; [solvePolynomial] collects the
    first k keys the same way.  On the first test case (n = 4, k = 3,
    keys 1, 2, 3 and 6) the selected abscissae are 1, 2, 3. *)
Theorem extraction_order :
  (forall (td : TestData) (parsed : Parsed),
      parseTestCase td = Normal parsed ->
      StronglySorted Z.lt (present_keys td)
      /\ Forall2 (decoded_at td) (present_keys td) (parsed_points parsed))
  /\ (forall (td : TestData) (sol : Solution),
        0 <= keys_k td ->
        solveShamirSecretSharing td = Normal sol ->
        exists selected,
          Forall2 (decoded_at td)
                  (take (Z.to_nat (keys_k td)) (present_keys td)) selected
          /\ length selected = Z.to_nat (keys_k td)
          /\ secret sol = Math_round (lagrange_sum selected))
  /\ (forall td : TestData,
        extract_points td =
          take (Z.to_nat (keys_k td)) (map (linear_point td) (present_keys td))
        /\ solvePolynomial td =
             solve_points
               (take (Z.to_nat (keys_k td)) (map (linear_point td) (present_keys td)))
               (keys_k td))
  /\ (entries testCase1 !! 6 = Some (entry "4" "213")
      /\ present_keys testCase1 = [1; 2; 3]
      /\ (exists parsed,
            parseTestCase testCase1 = Normal parsed
            /\ map fst (slice0 (parsed_points parsed) (keys_k testCase1))
               = [Z2F 1; Z2F 2; Z2F 3])
      /\ map fst (extract_points testCase1) = [Z2F 1; Z2F 2; Z2F 3]).
Proof.
  split; [|split; [|split]].
  - intros td parsed H. split; [apply present_keys_sorted|].
    apply (parseTestCase_points td parsed H).
  - intros td sol Hk H.
    destruct (solve_selected td sol Hk H) as (parsed & Hparsed & Hlen & Hsecret).
    destruct (parseTestCase_points td parsed Hparsed) as (_ & _ & Hpts).
    exists (take (Z.to_nat (keys_k td)) (parsed_points parsed)).
    split; [apply Forall2_take, Hpts|].
    split; [apply length_take_le, Hlen | exact Hsecret].
  - intros td. unfold solvePolynomial. rewrite extract_points_take. auto.
  - split; [vm_compute; reflexivity|].
    split; [vm_compute; reflexivity|].
    split; [eexists; split; vm_compute; reflexivity | vm_compute; reflexivity].
Qed.

Lemma extraction_order_witness :
  exists sol,
    0 <= keys_k testCase1
    /\ solveShamirSecretSharing testCase1 = Normal sol
    /\ exists selected,
         Forall2 (decoded_at testCase1)
                 (take (Z.to_nat (keys_k testCase1)) (present_keys testCase1))
                 selected
         /\ length selected = Z.to_nat (keys_k testCase1)
         /\ secret sol = Math_round (lagrange_sum selected).
Proof.
  eexists. split; [simpl; lia|].
  split; [vm_compute; reflexivity|].
  apply (proj1 (proj2 extraction_order) testCase1);
    [simpl; lia | vm_compute; reflexivity].
Defined.

(** C10: the points of [parseTestCase] follow the keys of 1..n that have
    an entry, which increase strictly; each point is its key with the
    decoded value of its entry.  The first k keys are pairwise distinct,
    and (the counter being an exact Number, n < 2^53) the abscissae of
    the points increase strictly as Numbers, so the points handed to the
    interpolation have pairwise distinct abscissae. *)
Theorem parsed_points_ascending (td : TestData) (parsed : Parsed) :
  parseTestCase td = Normal parsed ->
  StronglySorted Z.lt (present_keys td)
  /\ (forall i, i ∈ present_keys td ->
                1 <= i <= keys_n td /\ is_Some (entries td !! i))
  /\ Forall2 (decoded_at td) (present_keys td) (parsed_points parsed)
  /\ NoDup (take (Z.to_nat (keys_k td)) (present_keys td))
  /\ (keys_n td < 2 ^ 53 ->
        ascending (parsed_points parsed)
        /\ NoDup (map fst (slice0 (parsed_points parsed) (keys_k td)))
        /\ ~ duplicate_abscissa (slice0 (parsed_points parsed) (keys_k td))).
Proof.
  intros H.
  destruct (parseTestCase_points td parsed H) as (_ & _ & Hpts).
  pose proof (present_keys_sorted td) as Hsorted.
  split; [exact Hsorted|].
  split; [apply present_keys_range|].
  split; [exact Hpts|].
  split.
  { apply (sublist_NoDup _ (present_keys td)); [|apply sublist_take].
    unfold present_keys. apply NoDup_filter, NoDup_seqZ. }
  intros Hn.
  assert (Hasc : ascending (parsed_points parsed)).
  { unfold ascending. rewrite (decoded_abscissae _ _ _ Hpts).
    apply Z2F_sorted; [exact Hsorted|].
    apply Forall_forall. intros i Hi. apply present_keys_range in Hi. lia. }
  split; [exact Hasc|].
  split; [apply ascending_NoDup | apply ascending_no_duplicate];
    apply ascending_slice0, Hasc.
Qed.

Lemma parsed_points_ascending_witness :
  exists parsed,
    parseTestCase testCase1 = Normal parsed
    /\ StronglySorted Z.lt (present_keys testCase1)
    /\ (forall i, i ∈ present_keys testCase1 ->
                  1 <= i <= keys_n testCase1 /\ is_Some (entries testCase1 !! i))
    /\ Forall2 (decoded_at testCase1) (present_keys testCase1) (parsed_points parsed)
    /\ NoDup (take (Z.to_nat (keys_k testCase1)) (present_keys testCase1))
    /\ (keys_n testCase1 < 2 ^ 53 ->
          ascending (parsed_points parsed)
          /\ NoDup (map fst (slice0 (parsed_points parsed) (keys_k testCase1)))
          /\ ~ duplicate_abscissa (slice0 (parsed_points parsed) (keys_k testCase1))).
Proof.
  eexists. split; [vm_compute; reflexivity|].
  apply (parsed_points_ascending testCase1). vm_compute; reflexivity.
Defined.

End Pipeline.

(** ** The base converter on unusual bases and spellings *)

Section ConverterEdges.

Lemma digit_missing_iff (c : ascii) :
  (indexOf digits (toLowerCase c) =? -1) = negb (alphanumeric c).
Proof.
  rewrite indexOf_digits. unfold alphanumeric.
  destruct (parse_digit c) as [d|] eqn:E; simpl; [|reflexivity].
  apply parse_digit_range in E. lia.
Qed.

Lemma geb_NaN (x : number) : geb x NaN = false.
Proof. reflexivity. Qed.

Lemma mul_NaN_r (x : number) : (x * NaN)%js = NaN.
Proof. destruct x; reflexivity. Qed.

Lemma add_NaN_l (x : number) : (NaN + x)%js = NaN.
Proof. reflexivity. Qed.

Lemma convert_loop_NaN_base (value : string) (result : number) :
  convert_loop value NaN result =
    match find (fun c => negb (alphanumeric c)) (chars value) with
    | Some c => Throw (InvalidDigit c NaN)
    | None => Normal (match value with EmptyString => result | _ => NaN end)
    end.
Proof.
  revert result. induction value as [|c rest IH]; intros result; [reflexivity|].
  cbn [convert_loop chars list_ascii_of_string find].
  rewrite digit_missing_iff, geb_NaN, orb_false_r.
  destruct (alphanumeric c); simpl; [|reflexivity].
  rewrite IH, mul_NaN_r, add_NaN_l.
  fold (chars rest). destruct (find _ (chars rest)); [reflexivity|].
  destruct rest; reflexivity.
Qed.

(** X1: a base that is not a numeral is not rejected.  With the base NaN
    (what [parseInt] gives for such a base) the range test of the loop is
    never true: the call throws only at a character outside 0-9, a-z, A-Z,
    and on a non-empty string of such characters it returns NaN. *)
Theorem convertToDecimal_NaN_base :
  (forall value : string,
      convertToDecimal value NaN =
        match find (fun c => negb (alphanumeric c)) (chars value) with
        | Some c => Throw (InvalidDigit c NaN)
        | None => Normal (match value with EmptyString => zero | _ => NaN end)
        end)
  /\ (forall e : EncodedPoint,
        parseInt (base e) None = NaN ->
        value e <> EmptyString ->
        forallb alphanumeric (chars (value e)) = true ->
        decode e = Normal NaN).
Proof.
  split; [intros value; apply convert_loop_NaN_base|].
  intros e Hbase Hne Hal. unfold decode, convertToDecimal.
  rewrite Hbase, convert_loop_NaN_base.
  assert (Hfind : find (fun c => negb (alphanumeric c)) (chars (value e)) = None).
  { induction (chars (value e)) as [|c l IH]; [reflexivity|].
    simpl in *. apply andb_prop in Hal as [Hc Hl]. rewrite Hc. simpl. auto. }
  rewrite Hfind. destruct (value e); [contradiction | reflexivity].
Qed.

Lemma convertToDecimal_NaN_base_witness :
  parseInt (base (entry "x" "1z")) None = NaN
  /\ value (entry "x" "1z") <> EmptyString
  /\ forallb alphanumeric (chars (value (entry "x" "1z"))) = true
  /\ decode (entry "x" "1z") = Normal NaN.
Proof.
  split; [reflexivity|]. split; [discriminate|]. split; [reflexivity|].
  apply (proj2 convertToDecimal_NaN_base (entry "x" "1z"));
    [reflexivity | discriminate | reflexivity].
Defined.

Lemma toLowerCase_idem (c : ascii) : toLowerCase (toLowerCase c) = toLowerCase c.
Proof. destruct c as [[] [] [] [] [] [] [] []]; reflexivity. Qed.

(** The Number a completion returns, if it returns. *)
Lemma convert_loop_lowercase (value : string) (base result : number) :
  forall r, convert_loop value base result = Normal r
            <-> convert_loop (lowercase value) base result = Normal r.
Proof.
  revert result. induction value as [|c rest IH]; intros result r; [reflexivity|].
  cbn [lowercase convert_loop]. rewrite toLowerCase_idem.
  destruct ((indexOf digits (toLowerCase c) =? -1)
            || geb (Z2F (indexOf digits (toLowerCase c))) base).
  - split; discriminate.
  - apply IH.
Qed.

(** X2: digits are case-insensitive.  Two strings that are equal after
    lower-casing convert to the same Number, or both throw. *)
Theorem convertToDecimal_case_insensitive (v1 v2 : string) (base : number) :
  lowercase v1 = lowercase v2 ->
  (forall r, convertToDecimal v1 base = Normal r
             <-> convertToDecimal v2 base = Normal r)
  /\ ((exists e, convertToDecimal v1 base = Throw e)
      <-> (exists e, convertToDecimal v2 base = Throw e)).
Proof.
  intros H. unfold convertToDecimal.
  assert (Hr : forall r, convert_loop v1 base zero = Normal r
                         <-> convert_loop v2 base zero = Normal r).
  { intros r. rewrite (convert_loop_lowercase v1), (convert_loop_lowercase v2), H.
    reflexivity. }
  split; [exact Hr|].
  destruct (convert_loop v1 base zero) as [r1|e1] eqn:H1;
    destruct (convert_loop v2 base zero) as [r2|e2] eqn:H2.
  - split; intros [e He]; discriminate.
  - discriminate (proj1 (Hr r1) eq_refl).
  - discriminate (proj2 (Hr r2) eq_refl).
  - split; eauto.
Qed.

Lemma convertToDecimal_case_insensitive_witness :
  lowercase "AeD7" = lowercase "aEd7"
  /\ (forall r, convertToDecimal "AeD7" (Z2F 15) = Normal r
                <-> convertToDecimal "aEd7" (Z2F 15) = Normal r)
  /\ ((exists e, convertToDecimal "AeD7" (Z2F 15) = Throw e)
      <-> (exists e, convertToDecimal "aEd7" (Z2F 15) = Throw e)).
Proof.
  split; [reflexivity|].
  apply (convertToDecimal_case_insensitive "AeD7" "aEd7" (Z2F 15)). reflexivity.
Defined.

(** X3: leading zeros do not change the result, for a base of 2..36. *)
Theorem convertToDecimal_leading_zero (b : Z) (value : string) :
  2 <= b <= 36 ->
  convertToDecimal (String "0" value) (Z2F b) = convertToDecimal value (Z2F b).
Proof.
  intros Hb. unfold convertToDecimal. cbn [convert_loop].
  rewrite digit_test by assumption.
  assert (Hv : valid_digit b "0" = true).
  { change (valid_digit b "0") with (0 <? b). lia. }
  rewrite Hv. simpl negb. cbv iota.
  replace (indexOf digits (toLowerCase "0")) with 0 by reflexivity.
  change zero with (Z2F 0) at 1. rewrite (mul_exact 0 b) by lia. reflexivity.
Qed.

Lemma convertToDecimal_leading_zero_witness :
  2 <= 4 <= 36
  /\ convertToDecimal (String "0" "213") (Z2F 4) = convertToDecimal "213" (Z2F 4).
Proof.
  split; [lia|]. apply (convertToDecimal_leading_zero 4 "213"). lia.
Defined.

End ConverterEdges.

(** ** Subtracting one, on Numbers *)

Section SignedIntegers.

(** Rounding a mantissa and an exponent that denote a positive integer
    below 2^53 gives the Number of that integer, with the sign asked for. *)
Lemma binary_round_exact (s : bool) (M q : positive) (e : Z) :
  Zpos q < 2 ^ 53 ->
  e <= 0 ->
  Zpos M = Zpos q * 2 ^ (- e) ->
  binary_round prec emax s M e
  = S754_finite s (aligned q) (Zpos (digits2_pos q) - prec).
Proof.
  intros Hq He HM. pose proof (digits_bound q Hq) as HD.
  assert (H1 : 1 <= Zpos (digits2_pos q)) by lia.
  assert (HdM : Zpos (digits2_pos M) = Zpos (digits2_pos q) - e).
  { rewrite !digits2_pos_log2, HM.
    rewrite Z.log2_mul_pow2 by (pose proof (Z.log2_nonneg (Zpos q)); lia). lia. }
  unfold binary_round. rewrite HdM.
  replace (fexp prec emax (Zpos (digits2_pos q) - e + e))
    with (Zpos (digits2_pos q) - prec)
    by (unfold fexp, emin; unfold prec, emax in *; lia).
  unfold shl_align.
  destruct (Zpos (digits2_pos q) - prec - e) as [|d|d] eqn:Ed.
  - apply binary_round_aux_exact; [assumption | lia | exact HM].
  - apply binary_round_aux_exact; [assumption | lia | exact HM].
  - apply binary_round_aux_exact; [assumption | lia |].
    rewrite iter_xO_value, HM, <- Z.mul_assoc, <- Z.pow_add_r by lia.
    f_equal. f_equal. lia.
Qed.

Lemma Z2F_neg (p : positive) :
  Zpos p < 2 ^ 53 ->
  Z2F (Zneg p) = S754_finite true (aligned p) (Zpos (digits2_pos p) - prec).
Proof.
  intros Hp. unfold Z2F, binary_normalize.
  apply binary_round_exact; [assumption | lia | simpl; lia].
Qed.

(** [k - 1] on Numbers is the integer k - 1 as long as k and k - 1 have a
    magnitude below 2^53. *)
Lemma Z2F_sub_one (k : Z) :
  - 2 ^ 53 < k - 1 -> k < 2 ^ 53 -> (Z2F k - one)%js = Z2F (k - 1).
Proof.
  intros Hlo Hhi.
  replace one with (S754_finite false 4503599627370496 (-52)) by reflexivity.
  destruct k as [|p|p].
  - reflexivity.
  - pose proof (digits_bound p Hhi) as HD.
    assert (H1 : 1 <= Zpos (digits2_pos p)) by lia.
    rewrite (Z2F_pos p) by assumption.
    unfold sub, SFsub. cbv zeta. simpl cond_Zopp.
    replace (Z.min (Zpos (digits2_pos p) - prec) (-52)) with (-52)
      by (unfold prec in *; lia).
    rewrite !shl_align_value by (unfold prec in *; lia).
    rewrite aligned_value by assumption.
    replace (Zpos p * 2 ^ (prec - Zpos (digits2_pos p))
               * 2 ^ (Zpos (digits2_pos p) - prec - -52)
             - 4503599627370496 * 2 ^ (-52 - -52))
      with ((Zpos p - 1) * 2 ^ 52).
    2:{ rewrite <- Z.mul_assoc, <- Z.pow_add_r by (unfold prec in *; lia).
        replace (prec - Zpos (digits2_pos p) + (Zpos (digits2_pos p) - prec - -52))
          with 52 by lia.
        change (2 ^ (-52 - -52)) with 1. change 4503599627370496 with (2 ^ 52). ring. }
    destruct (Zpos p - 1) as [|q|q] eqn:Eq; [reflexivity | | lia].
    change (Zpos q * 2 ^ 52) with (Zpos (q * 4503599627370496)).
    unfold binary_normalize.
    rewrite (binary_round_exact false _ q (-52)); [| lia | lia | reflexivity].
    rewrite (Z2F_pos q) by (apply digits_bound; lia). reflexivity.
  - assert (Hp : Zpos p < 2 ^ 53) by lia.
    assert (Hp1 : Zpos (p + 1) < 2 ^ 53) by lia.
    pose proof (digits_bound p Hp) as HD.
    assert (H1 : 1 <= Zpos (digits2_pos p)) by lia.
    rewrite (Z2F_neg p) by assumption.
    unfold sub, SFsub. cbv zeta. simpl cond_Zopp.
    replace (Z.min (Zpos (digits2_pos p) - prec) (-52)) with (-52)
      by (unfold prec in *; lia).
    rewrite !shl_align_value by (unfold prec in *; lia).
    rewrite aligned_value by assumption.
    replace (- (Zpos p * 2 ^ (prec - Zpos (digits2_pos p))
                * 2 ^ (Zpos (digits2_pos p) - prec - -52))
             - 4503599627370496 * 2 ^ (-52 - -52))
      with (Zneg ((p + 1) * 4503599627370496)).
    2:{ rewrite <- Z.mul_assoc, <- Z.pow_add_r by (unfold prec in *; lia).
        replace (prec - Zpos (digits2_pos p) + (Zpos (digits2_pos p) - prec - -52))
          with 52 by lia.
        change (2 ^ (-52 - -52)) with 1. change (2 ^ 52) with 4503599627370496. lia. }
    unfold binary_normalize.
    rewrite (binary_round_exact true _ (p + 1) (-52)); [| lia | lia | reflexivity].
    replace (Zneg p - 1) with (Zneg (p + 1)) by lia.
    rewrite (Z2F_neg (p + 1)) by assumption. reflexivity.
Qed.

End SignedIntegers.

(** ** Outcomes of the Lagrange pipeline *)

Section PipelineOutcomes.

(** The only exception of [convertToDecimal] is the invalid digit, with a
    character of the string and the base it was given. *)
Lemma convert_loop_throw (value : string) (base result : number) (err : error) :
  convert_loop value base result = Throw err ->
  exists c, In c (chars value) /\ err = InvalidDigit c base.
Proof.
  revert result. induction value as [|c rest IH]; intros result H;
    [discriminate H|].
  cbn [convert_loop] in H.
  destruct ((indexOf digits (toLowerCase c) =? -1)
            || geb (Z2F (indexOf digits (toLowerCase c))) base).
  - inversion H; subst. exists c. split; [left; reflexivity | reflexivity].
  - apply IH in H as (c' & Hin & ->). exists c'. split; [right; exact Hin | reflexivity].
Qed.

(** The loop of [parseTestCase] stops at the first entry that does not
    decode. *)
Lemma parse_loop_first_throw (td : TestData) (fuel : nat) :
  forall (i0 i : Z) (points : list point) (e : EncodedPoint) (err : error),
    i0 <= i < i0 + Z.of_nat fuel ->
    entries td !! i = Some e ->
    decode e = Throw err ->
    (forall j e', i0 <= j < i -> entries td !! j = Some e' -> valid_entry e') ->
    parse_loop td fuel i0 points = Throw err.
Proof.
  induction fuel as [|fuel IH]; intros i0 i points e err Hi He Herr Hbefore;
    [lia|].
  cbn [parse_loop].
  destruct (Z.eq_dec i0 i) as [->|Hne].
  - rewrite He. unfold decode in Herr. rewrite Herr. reflexivity.
  - destruct (entries td !! i0) as [e0|] eqn:He0.
    + destruct (valid_entry_decodes e0) as [y Hy]; [apply (Hbefore i0); [lia | exact He0]|].
      rewrite Hy. simpl. apply (IH (i0 + 1) i _ e err); try assumption; [lia|].
      intros j e' Hj. apply Hbefore. lia.
    + apply (IH (i0 + 1) i _ e err); try assumption; [lia|].
      intros j e' Hj. apply Hbefore. lia.
Qed.

(** X4: an entry that does not decode makes the whole solve fail with its
    invalid digit, whatever the number of points: when the entries under
    the keys before [i] are valid and the entry under [i] has an invalid
    digit, [parseTestCase] and [solveShamirSecretSharing] throw the
    [InvalidDigit] of that entry, and the count of points is never tested. *)
Theorem invalid_digit_reported_first
    (td : TestData) (i : Z) (e : EncodedPoint) (err : error) :
  1 <= i <= keys_n td ->
  entries td !! i = Some e ->
  decode e = Throw err ->
  (forall j e', 1 <= j < i -> entries td !! j = Some e' -> valid_entry e') ->
  parseTestCase td = Throw err
  /\ solveShamirSecretSharing td = Throw err
  /\ exists c, In c (chars (value e))
               /\ err = InvalidDigit c (parseInt (base e) None).
Proof.
  intros Hi He Herr Hbefore.
  assert (Hparse : parseTestCase td = Throw err).
  { unfold parseTestCase.
    rewrite (parse_loop_first_throw td (Z.to_nat (keys_n td)) 1 i [] e err);
      [reflexivity | lia | assumption | assumption | assumption]. }
  split; [exact Hparse|].
  split; [unfold solveShamirSecretSharing; rewrite Hparse; reflexivity|].
  apply (convert_loop_throw _ _ zero). exact Herr.
Qed.

Lemma invalid_digit_reported_first_witness :
  solveShamirSecretSharing bad_digit_input
  = Throw (InvalidDigit "2" (Z2F 2)).
Proof.
  apply (invalid_digit_reported_first bad_digit_input 2 (entry "2" "102")).
  - simpl. lia.
  - vm_compute. reflexivity.
  - vm_compute. reflexivity.
  - intros j e' Hj He'. assert (j = 1) as -> by lia.
    vm_compute in He'. inversion He'; subst e'.
    exists 10. split; [lia | split; vm_compute; reflexivity].
Defined.

(** X5: the success path.  When the entries under 1..n are valid and at
    least k keys have one, [solveShamirSecretSharing] returns; and whenever
    it returns, [pointsUsed] is k, [totalPoints] is the number of keys of
    1..n that have an entry (at least k), [polynomial_degree] is the
    Number k - 1 (the integer k - 1 when k and k - 1 have a magnitude below
    2^53) and the secret is the rounded Lagrange sum of the points
    [slice(0, k)] keeps. *)
Theorem solve_returns :
  (forall td : TestData,
      valid_entries td ->
      keys_k td <= Z.of_nat (length (present_keys td)) ->
      exists sol, solveShamirSecretSharing td = Normal sol)
  /\ (forall (td : TestData) (sol : Solution),
        solveShamirSecretSharing td = Normal sol ->
        pointsUsed sol = keys_k td
        /\ totalPoints sol = Z.of_nat (length (present_keys td))
        /\ keys_k td <= totalPoints sol
        /\ polynomial_degree sol = (Z2F (keys_k td) - one)%js
        /\ (- 2 ^ 53 < keys_k td - 1 -> keys_k td < 2 ^ 53 ->
            polynomial_degree sol = Z2F (keys_k td - 1))
        /\ exists parsed,
             parseTestCase td = Normal parsed
             /\ secret sol =
                  Math_round (lagrange_sum (slice0 (parsed_points parsed) (keys_k td)))).
Proof.
  split.
  - intros td Hvalid Hk.
    destruct (parseTestCase_completes td Hvalid) as [parsed Hparsed].
    destruct (parseTestCase_points td parsed Hparsed) as (Hpk & Hfound & Hpts).
    apply Forall2_length in Hpts.
    unfold solveShamirSecretSharing. rewrite Hparsed. simpl.
    rewrite Hpk, Hfound, <- Hpts.
    destruct (Z.ltb_spec (Z.of_nat (length (present_keys td))) (keys_k td));
      [lia | eauto].
  - intros td sol H. unfold solveShamirSecretSharing in H.
    destruct (parseTestCase td) as [parsed|err] eqn:Hparsed; simpl in H;
      [|discriminate H].
    destruct (parseTestCase_points td parsed Hparsed) as (Hpk & Hfound & Hpts).
    apply Forall2_length in Hpts.
    rewrite Hpk, Hfound, <- Hpts in H.
    destruct (Z.ltb_spec (Z.of_nat (length (present_keys td))) (keys_k td));
      [discriminate H|].
    inversion H; subst; simpl.
    split; [reflexivity|]. split; [reflexivity|]. split; [lia|].
    split; [reflexivity|]. split; [apply Z2F_sub_one|].
    exists parsed. split; reflexivity.
Qed.

Lemma line_input_valid : valid_entries line_input.
Proof.
  intros i e Hi He. simpl in Hi.
  assert (Hcases : i = 1 \/ i = 2 \/ i = 3 \/ i = 4) by lia.
  destruct Hcases as [-> | [-> | [-> | ->]]]; vm_compute in He;
    try discriminate He; inversion He; subst e;
    (exists 10; split; [lia | split; vm_compute; reflexivity]).
Defined.

Lemma solve_returns_witness :
  valid_entries line_input
  /\ keys_k line_input <= Z.of_nat (length (present_keys line_input))
  /\ exists sol, solveShamirSecretSharing line_input = Normal sol.
Proof.
  split; [exact line_input_valid|].
  split; [vm_compute; discriminate|].
  apply (proj1 solve_returns line_input);
    [exact line_input_valid | vm_compute; discriminate].
Defined.

Lemma parse_loop_agree (td1 td2 : TestData) (fuel : nat) :
  forall (i : Z) (points : list point),
    (forall j, i <= j < i + Z.of_nat fuel -> entries td1 !! j = entries td2 !! j) ->
    parse_loop td1 fuel i points = parse_loop td2 fuel i points.
Proof.
  induction fuel as [|fuel IH]; intros i points H; [reflexivity|].
  cbn [parse_loop]. rewrite <- (H i) by lia.
  destruct (entries td1 !! i) as [e|].
  - destruct (convertToDecimal (value e) (parseInt (base e) None)); simpl;
      [|reflexivity].
    apply IH. intros j Hj. apply H. lia.
  - apply IH. intros j Hj. apply H. lia.
Qed.

Lemma extract_loop_agree (td1 td2 : TestData) (fuel : nat) :
  keys_n td1 = keys_n td2 -> keys_k td1 = keys_k td2 ->
  forall (idx : Z) (points : list point),
    1 <= idx ->
    (forall j, 1 <= j <= keys_n td1 -> entries td1 !! j = entries td2 !! j) ->
    extract_loop td1 fuel idx points = extract_loop td2 fuel idx points.
Proof.
  intros Hn Hk. induction fuel as [|fuel IH]; intros idx points Hidx H;
    [reflexivity|].
  cbn [extract_loop]. rewrite <- Hn, <- Hk.
  destruct (Z.of_nat (length points) <? keys_k td1); simpl; [|reflexivity].
  destruct (Z.leb_spec idx (keys_n td1)); [|reflexivity].
  rewrite <- (H idx) by lia. apply IH; [lia | exact H].
Qed.

(** X6: only [n], [k] and the entries under the keys 1..n matter.  Two
    inputs that agree on them get the same outcome from both solvers,
    whatever else they hold (a key 0, keys beyond n). *)
Theorem entries_out_of_range_ignored (td1 td2 : TestData) :
  agree_in_range td1 td2 ->
  parseTestCase td1 = parseTestCase td2
  /\ solveShamirSecretSharing td1 = solveShamirSecretSharing td2
  /\ solvePolynomial td1 = solvePolynomial td2.
Proof.
  intros (Hn & Hk & He).
  assert (Hparse : parseTestCase td1 = parseTestCase td2).
  { unfold parseTestCase. rewrite <- Hn, <- Hk.
    rewrite (parse_loop_agree td1 td2); [reflexivity|].
    intros j Hj. apply He. lia. }
  split; [exact Hparse|].
  split; [unfold solveShamirSecretSharing; rewrite Hparse; reflexivity|].
  unfold solvePolynomial, extract_points. rewrite <- Hn, <- Hk.
  rewrite (extract_loop_agree td1 td2); auto. lia.
Qed.

Lemma testCase1_beyond_agrees : agree_in_range testCase1 testCase1_beyond.
Proof.
  split; [reflexivity|]. split; [reflexivity|].
  intros i Hi. simpl in Hi.
  assert (Hcases : i = 1 \/ i = 2 \/ i = 3 \/ i = 4) by lia.
  destruct Hcases as [-> | [-> | [-> | ->]]]; vm_compute; reflexivity.
Defined.

Lemma entries_out_of_range_ignored_witness :
  agree_in_range testCase1 testCase1_beyond
  /\ parseTestCase testCase1 = parseTestCase testCase1_beyond
  /\ solveShamirSecretSharing testCase1 = solveShamirSecretSharing testCase1_beyond
  /\ solvePolynomial testCase1 = solvePolynomial testCase1_beyond.
Proof.
  split; [exact testCase1_beyond_agrees|].
  apply (entries_out_of_range_ignored testCase1 testCase1_beyond).
  exact testCase1_beyond_agrees.
Defined.

End PipelineOutcomes.

(** ** The two decoders: [convertToDecimal] and [parseInt] *)

Section Decoders.

Lemma ToInt32_base (b : Z) : 2 <= b <= 36 -> ToInt32 (Z2F b) = b.
Proof.
  intros Hb.
  assert (Hall : forallb (fun b' => ToInt32 (Z2F b') =? b') (seqZ 2 35) = true)
    by (vm_compute; reflexivity).
  rewrite forallb_forall in Hall.
  specialize (Hall b ltac:(apply list_elem_of_In, elem_of_seqZ; lia)). lia.
Qed.

Lemma valid_digit_alphanumeric (b : Z) (c : ascii) :
  valid_digit b c = true -> alphanumeric c = true.
Proof.
  unfold valid_digit, alphanumeric. destruct (parse_digit c); [reflexivity | discriminate].
Qed.

(** A string that starts with a digit has no white space or sign to
    strip. *)
Lemma digit_first_unstripped (c : ascii) (rest : string) :
  alphanumeric c = true ->
  strip_sign (trim_start (String c rest)) = (false, String c rest).
Proof.
  destruct c as [[] [] [] [] [] [] [] []]; intros H; vm_compute in H;
    try discriminate H; reflexivity.
Qed.

Lemma strip_hex_prefix_Some (s rest : string) :
  strip_hex_prefix s = Some rest ->
  s = String "0" (String "x" rest) \/ s = String "0" (String "X" rest).
Proof.
  destruct s as [|c1 [|c2 r]]; simpl.
  - discriminate.
  - destruct c1 as [[] [] [] [] [] [] [] []]; discriminate.
  - destruct c1 as [[] [] [] [] [] [] [] []]; try discriminate;
      destruct c2 as [[] [] [] [] [] [] [] []]; try discriminate;
      intros H; inversion H; subst; auto.
Qed.

Lemma hex_digit_not_x (c : ascii) :
  valid_digit 16 c = true -> c <> "x"%char /\ c <> "X"%char.
Proof.
  intros H. split; intros ->; vm_compute in H; discriminate H.
Qed.

Lemma append_empty_r (s : string) : String.append s "" = s.
Proof.
  induction s as [|c s IH]; [reflexivity|].
  change (String c (String.append s "") = String c s). rewrite IH. reflexivity.
Qed.


(** [parse_digits] reads the valid digits and stops at the first character
    that is not one. *)
Lemma parse_digits_prefix (b : Z) (prefix tail : string) :
  valid_in_base b prefix = true ->
  match tail with
  | EmptyString => True
  | String c _ => valid_digit b c = false
  end ->
  forall (acc : Z) (seen : bool),
    parse_digits (String.append prefix tail) b acc seen =
      (fold_left (digit_step b) (chars prefix) acc,
       seen || match prefix with EmptyString => false | _ => true end).
Proof.
  intros Hv Ht. unfold valid_in_base in Hv.
  induction prefix as [|c rest IH]; intros acc seen.
  - cbn [String.append chars list_ascii_of_string fold_left]. rewrite orb_false_r.
    destruct tail as [|c t]; [reflexivity|].
    unfold valid_digit in Ht.
    destruct (parse_digit c) as [d|] eqn:Hd;
      change (String.append "" (String c t)) with (String c t);
      cbn [parse_digits]; rewrite Hd; [rewrite Ht|]; reflexivity.
  - cbn [chars list_ascii_of_string forallb] in Hv. apply andb_prop in Hv as [Hc Hr].
    change (String.append (String c rest) tail) with (String c (String.append rest tail)).
    cbn [parse_digits chars list_ascii_of_string fold_left].
    unfold valid_digit in Hc. unfold digit_step at 2.
    destruct (parse_digit c) as [d|] eqn:Hd; [|discriminate Hc]. rewrite Hc.
    simpl default. fold (chars rest).
    rewrite (IH Hr). rewrite orb_true_r, orb_true_l. reflexivity.
Qed.

(** [parseInt] on a string that starts with a digit of the radix and has
    no hexadecimal prefix to strip: the value of the leading digits. *)
Lemma parseInt_leading_digits (b : Z) (prefix tail : string) :
  2 <= b <= 36 ->
  prefix <> EmptyString ->
  valid_in_base b prefix = true ->
  match tail with
  | EmptyString => True
  | String c _ => valid_digit b c = false
  end ->
  (b = 16 -> strip_hex_prefix (String.append prefix tail) = None) ->
  parseInt (String.append prefix tail) (Some (Z2F b)) = Z2F (positional b prefix).
Proof.
  intros Hb Hne Hv Ht Hhex.
  destruct prefix as [|c rest]; [contradiction|].
  assert (Hc : alphanumeric c = true).
  { unfold valid_in_base in Hv. cbn [chars list_ascii_of_string forallb] in Hv.
    apply andb_prop in Hv as [Hc _]. exact (valid_digit_alphanumeric _ _ Hc). }
  unfold parseInt.
  change (String.append (String c rest) tail) with (String c (String.append rest tail)).
  rewrite digit_first_unstripped by exact Hc.
  rewrite ToInt32_base by assumption.
  destruct (Z.eqb_spec b 0) as [|_]; [lia|].
  destruct (Z.ltb_spec b 2) as [|_]; [lia|].
  destruct (Z.ltb_spec 36 b) as [|_]; [lia|].
  cbn [negb andb orb].
  assert (Hstrip : (if b =? 16 then strip_hex_prefix (String c (String.append rest tail))
                    else None) = None).
  { destruct (Z.eqb_spec b 16) as [H16|_]; [apply (Hhex H16) | reflexivity]. }
  rewrite Hstrip.
  change (String c (String.append rest tail)) with (String.append (String c rest) tail).
  rewrite (parse_digits_prefix b (String c rest) tail Hv Ht). cbn [orb negb].
  unfold positional.
  destruct (Z.eqb_spec (fold_left (digit_step b) (chars (String c rest)) 0) 0) as [->|_];
    reflexivity.
Qed.

Lemma convertToDecimal_exact_value (b : Z) (value : string) :
  2 <= b <= 36 ->
  valid_in_base b value = true ->
  positional b value < 2 ^ 53 ->
  convertToDecimal value (Z2F b) = Normal (Z2F (positional b value)).
Proof.
  intros Hb Hv Hlt. unfold convertToDecimal.
  rewrite convert_loop_unfold by assumption.
  apply find_invalid_none in Hv as Hnone. rewrite Hnone.
  change zero with (Z2F 0). rewrite positional_fold in *.
  rewrite accumulate_exact; try assumption; try lia. reflexivity.
Qed.

Lemma valid_no_hex_prefix (value : string) :
  valid_in_base 16 value = true -> strip_hex_prefix value = None.
Proof.
  intros Hv. destruct (strip_hex_prefix value) as [rest|] eqn:E; [|reflexivity].
  apply strip_hex_prefix_Some in E as [-> | ->]; vm_compute in Hv; discriminate Hv.
Qed.

Lemma decode_parseValue_agree (e : EncodedPoint) (b : Z) :
  2 <= b <= 36 ->
  parseInt (base e) None = Z2F b ->
  value e <> EmptyString ->
  valid_in_base b (value e) = true ->
  positional b (value e) < 2 ^ 53 ->
  decode e = Normal (parseValue (base e) (value e))
  /\ parseValue (base e) (value e) = Z2F (positional b (value e)).
Proof.
  intros Hb Hbase Hne Hv Hlt.
  assert (Hp : parseValue (base e) (value e) = Z2F (positional b (value e))).
  { unfold parseValue. rewrite Hbase.
    pose proof (parseInt_leading_digits b (value e) EmptyString Hb Hne Hv I) as H.
    rewrite append_empty_r in H. apply H.
    intros ->. apply valid_no_hex_prefix, Hv. }
  split; [|exact Hp].
  unfold decode. rewrite Hbase, Hp. apply convertToDecimal_exact_value; assumption.
Qed.

(** X7: the two decoders agree on valid values below 2^53.  For an entry
    whose base denotes 2..36 and whose value is a non-empty string of
    digits of that base denoting less than 2^53, the ordinate of
    [answer.js] ([convertToDecimal]) and the ordinate of
    [solvepolynomial.js] ([parseValue]) are the same Number, the one of
    the positional value. *)
Theorem decoders_agree (e : EncodedPoint) (b : Z) :
  2 <= b <= 36 ->
  parseInt (base e) None = Z2F b ->
  value e <> EmptyString ->
  valid_in_base b (value e) = true ->
  positional b (value e) < 2 ^ 53 ->
  decode e = Normal (parseValue (base e) (value e))
  /\ parseValue (base e) (value e) = Z2F (positional b (value e)).
Proof. apply decode_parseValue_agree. Qed.

Lemma decoders_agree_witness :
  decode (entry "4" "213") = Normal (parseValue "4" "213")
  /\ parseValue "4" "213" = Z2F (positional 4 "213").
Proof.
  apply (decoders_agree (entry "4" "213") 4);
    [lia | reflexivity | discriminate | reflexivity | reflexivity].
Defined.



(** X9: with the base "16", [parseValue] strips a prefix 0x or 0X of the
    value and reads the hexadecimal digits behind it, where
    [convertToDecimal] throws at the x. *)
Theorem hex_prefix_accepted_by_parseValue (h : string) :
  h <> EmptyString ->
  valid_in_base 16 h = true ->
  parseValue "16" (String "0" (String "x" h)) = Z2F (positional 16 h)
  /\ parseValue "16" (String "0" (String "X" h)) = Z2F (positional 16 h)
  /\ convertToDecimal (String "0" (String "x" h)) (parseInt "16" None)
     = Throw (InvalidDigit "x" (Z2F 16))
  /\ convertToDecimal (String "0" (String "X" h)) (parseInt "16" None)
     = Throw (InvalidDigit "X" (Z2F 16)).
Proof.
  intros Hne Hv. unfold parseValue.
  change (parseInt "16" None) with (Z2F 16).
  assert (Hh : parse_digits h 16 0 false = (positional 16 h, true)).
  { pose proof (parse_digits_prefix 16 h EmptyString Hv I 0 false) as H.
    rewrite append_empty_r in H. rewrite H.
    destruct h; [contradiction | reflexivity]. }
  assert (Hp : forall s, strip_hex_prefix s = Some h ->
                 strip_sign (trim_start s) = (false, s) ->
                 parseInt s (Some (Z2F 16)) = Z2F (positional 16 h)).
  { intros s Hs Ht. unfold parseInt. rewrite Ht. cbv zeta.
    replace (ToInt32 (Z2F 16)) with 16 by reflexivity.
    change (negb (16 =? 0) && ((16 <? 2) || (36 <? 16))) with false.
    change ((16 =? 0) || (16 =? 16)) with true. cbv iota.
    rewrite Hs, Hh. cbn [negb].
    destruct (Z.eqb_spec (positional 16 h) 0) as [->|_]; reflexivity. }
  split; [apply Hp; reflexivity|].
  split; [apply Hp; reflexivity|].
  split; reflexivity.
Qed.

Lemma hex_prefix_accepted_by_parseValue_witness :
  parseValue "16" "0x1f" = Z2F (positional 16 "1f")
  /\ parseValue "16" "0X1f" = Z2F (positional 16 "1f")
  /\ convertToDecimal "0x1f" (parseInt "16" None) = Throw (InvalidDigit "x" (Z2F 16))
  /\ convertToDecimal "0X1f" (parseInt "16" None) = Throw (InvalidDigit "X" (Z2F 16)).
Proof.
  apply (hex_prefix_accepted_by_parseValue "1f"); [discriminate | reflexivity].
Defined.

End Decoders.

(** ** The linear system solver *)

Section LinearSystem.

Lemma swap_length {X} (l : list X) (i j : nat) : length (swap l i j) = length l.
Proof.
  unfold swap. destruct (l !! i), (l !! j); rewrite ?length_insert; reflexivity.
Qed.

Lemma eliminate_length (n i : nat) (l : list nat) :
  forall (A : list (list number)) (b : list number),
    length
      (snd (fold_left
              (fun '(A, b) k =>
                 if (k =? i)%nat then (A, b)
                 else
                   let factor := mget A k i in
                   let A := <[k := sub_row (nth k A []) (nth i A []) i n factor]> A in
                   let b := <[k := (vget b k - factor * vget b i)%js]> b in
                   (A, b))
              l (A, b)))
    = length b.
Proof.
  induction l as [|k l IH]; intros A b; [reflexivity|].
  cbn [fold_left]. destruct (k =? i)%nat; [apply IH|].
  cbv zeta. rewrite IH, length_insert. reflexivity.
Qed.

Lemma gauss_step_length (n : nat) (A : list (list number)) (b : list number) (i : nat) :
  length (snd (gauss_step n (A, b) i)) = length b.
Proof.
  unfold gauss_step. cbv zeta.
  rewrite eliminate_length, length_insert, swap_length. reflexivity.
Qed.

(** [gaussJordan] returns a vector as long as the right-hand side. *)
Lemma gaussJordan_length (A : list (list number)) (b : list number) :
  length (gaussJordan A b) = length b.
Proof.
  unfold gaussJordan. generalize (seq 0 (length A)) as l. generalize (length A) as n.
  intros n l. revert A b.
  induction l as [|i l IH]; intros A b; [reflexivity|].
  cbn [fold_left].
  destruct (gauss_step n (A, b) i) as [A' b'] eqn:E.
  rewrite IH. replace b' with (snd (gauss_step n (A, b) i)) by (rewrite E; reflexivity).
  apply gauss_step_length.
Qed.

Lemma solve_points_None (points : list point) (k : Z) :
  solve_points points k = None <-> points = [].
Proof.
  unfold solve_points, build_system. rewrite lookup_ge_None, gaussJordan_length.
  rewrite length_map. destruct points; simpl; split; intros H; try lia;
    try reflexivity; discriminate H.
Qed.

Lemma solvePolynomial_None_iff (td : TestData) :
  solvePolynomial td = None <-> (keys_k td <= 0 \/ present_keys td = []).
Proof.
  unfold solvePolynomial. rewrite solve_points_None, extract_points_take.
  destruct (present_keys td) as [|i l] eqn:E.
  - simpl. rewrite take_nil. tauto.
  - split.
    + intros H. left. destruct (Z.to_nat (keys_k td)) eqn:Ek; [lia|].
      simpl in H. discriminate H.
    + intros [H|H]; [|discriminate H].
      replace (Z.to_nat (keys_k td)) with 0%nat by lia. reflexivity.
Qed.

(** X10: [solvePolynomial] has no check of the number of points.  It
    returns [undefined] exactly when it collects no point (k <= 0, or no
    key of 1..n has an entry) and a Number in every other case, also when
    fewer than k keys have an entry. *)
Theorem solvePolynomial_undefined_iff (td : TestData) :
  solvePolynomial td = None <-> (keys_k td <= 0 \/ present_keys td = []).
Proof. apply solvePolynomial_None_iff. Qed.

(** X11: where [solveShamirSecretSharing] refuses an input for its
    insufficient points, [solvePolynomial] answers: with valid entries
    under at least one and fewer than k keys of 1..n, the first throws
    [InsufficientPoints] and the second returns a Number. *)
Theorem insufficient_points_only_checked_by_lagrange (td : TestData) :
  valid_entries td ->
  (0 < length (present_keys td))%nat ->
  Z.of_nat (length (present_keys td)) < keys_k td ->
  (exists needed found, solveShamirSecretSharing td
                        = Throw (InsufficientPoints needed found))
  /\ exists c0, solvePolynomial td = Some c0.
Proof.
  intros Hvalid Hsome Hfew. split.
  - destruct (parseTestCase_completes td Hvalid) as [parsed Hparsed].
    destruct (parseTestCase_points td parsed Hparsed) as (Hk & Hfound & Hpts).
    apply Forall2_length in Hpts.
    unfold solveShamirSecretSharing. rewrite Hparsed. simpl.
    rewrite Hk, Hfound, <- Hpts.
    destruct (Z.ltb_spec (Z.of_nat (length (present_keys td))) (keys_k td));
      [eauto | lia].
  - destruct (solvePolynomial td) as [c0|] eqn:E; [eauto|].
    apply solvePolynomial_None_iff in E as [E|E]; [lia|].
    rewrite E in Hsome. simpl in Hsome. lia.
Qed.

Lemma insufficient_points_only_checked_by_lagrange_witness :
  (exists needed found, solveShamirSecretSharing short_input
                        = Throw (InsufficientPoints needed found))
  /\ exists c0, solvePolynomial short_input = Some c0.
Proof.
  apply (insufficient_points_only_checked_by_lagrange short_input).
  - exact short_input_valid.
  - vm_compute. lia.
  - vm_compute. reflexivity.
Defined.

(** The order of the magnitudes. *)
Lemma abs_lt_finite (m1 m2 : positive) (e1 e2 : Z) :
  SFltb (S754_finite false m1 e1) (S754_finite false m2 e2) = true
  <-> e1 < e2 \/ (e1 = e2 /\ (m1 < m2)%positive).
Proof.
  unfold SFltb, SFcompare.
  destruct (Z.compare_spec e1 e2) as [->|H|H].
  - rewrite Pos.compare_cont_spec. simpl.
    destruct (Pos.compare_spec m1 m2) as [->|Hm|Hm]; split; intros H;
      try discriminate H; try reflexivity.
    + destruct H as [H|[_ H]]; lia.
    + right. split; [reflexivity | exact Hm].
    + destruct H as [H|[_ H]]; lia.
  - split; [intros _; left; exact H | reflexivity].
  - split; [discriminate | intros [H'|[H' _]]; lia].
Qed.

Lemma abs_lt_trans (a b c : number) :
  SFltb (SFabs a) (SFabs b) = true ->
  SFltb (SFabs b) (SFabs c) = true ->
  SFltb (SFabs a) (SFabs c) = true.
Proof.
  destruct a as [sa|sa| |sa ma ea], b as [sb|sb| |sb mb eb], c as [sc|sc| |sc mc ec];
    simpl; intros H1 H2; try discriminate H1; try discriminate H2;
    try reflexivity.
  apply abs_lt_finite in H1, H2. apply abs_lt_finite. lia.
Qed.

Lemma find_maxRow_fold (A : list (list number)) (i : nat) (l : list nat) :
  forall (m0 : nat) (seen : list nat),
    (forall k, In k seen ->
               gtb (Math_abs (mget A k i)) (Math_abs (mget A m0 i)) = false) ->
    let m := fold_left
               (fun maxRow k =>
                  if gtb (Math_abs (mget A k i)) (Math_abs (mget A maxRow i))
                  then k else maxRow)
               l m0 in
    (m = m0 \/ In m l)
    /\ forall k, In k (seen ++ l) ->
                 gtb (Math_abs (mget A k i)) (Math_abs (mget A m i)) = false.
Proof.
  induction l as [|k l IH]; intros m0 seen Hseen; cbn [fold_left].
  - split; [left; reflexivity|]. intros k. rewrite app_nil_r. apply Hseen.
  - cbv zeta.
    destruct (gtb (Math_abs (mget A k i)) (Math_abs (mget A m0 i))) eqn:Hgt.
    + destruct (IH k (seen ++ [k])) as [Hm Hall].
      { intros k' Hk'. apply in_app_or in Hk' as [Hk'|[<-|[]]].
        - destruct (gtb (Math_abs (mget A k' i)) (Math_abs (mget A k i))) eqn:E;
            [|reflexivity].
          pose proof (Hseen k' Hk') as Hs. unfold gtb, Math_abs in *.
          rewrite (abs_lt_trans _ _ _ Hgt E) in Hs. discriminate Hs.
        - apply SFltb_irrefl. }
      split; [right; destruct Hm as [->|Hm]; [left; reflexivity | right; exact Hm]|].
      intros k'. rewrite <- app_assoc in Hall. apply Hall.
    + destruct (IH m0 (seen ++ [k])) as [Hm Hall].
      { intros k' Hk'. apply in_app_or in Hk' as [Hk'|[<-|[]]];
          [apply Hseen, Hk' | exact Hgt]. }
      split; [destruct Hm as [->|Hm]; [left; reflexivity | right; right; exact Hm]|].
      intros k'. rewrite <- app_assoc in Hall. apply Hall.
Qed.

(** X12: partial pivoting.  The row [find_maxRow] selects for column [i] is
    [i] or a later row below [n], and no row of [i..n-1] has an entry of
    column [i] of larger magnitude than the selected one. *)
Theorem find_maxRow_maximal (A : list (list number)) (i n : nat) :
  let maxRow := find_maxRow A i n in
  (maxRow = i \/ (i < maxRow < n)%nat)
  /\ forall k, (i <= k < n)%nat ->
               gtb (Math_abs (mget A k i)) (Math_abs (mget A maxRow i)) = false.
Proof.
  cbv zeta. unfold find_maxRow.
  destruct (find_maxRow_fold A i (seq (i + 1) (n - (i + 1))) i [i]) as [Hm Hall].
  { intros k [<-|[]]. apply SFltb_irrefl. }
  split.
  - destruct Hm as [Hm|Hm]; [left; exact Hm | right]. apply in_seq in Hm. lia.
  - intros k Hk. apply Hall. destruct (Nat.eq_dec k i) as [->|Hne].
    + left. reflexivity.
    + right. apply in_seq. lia.
Qed.

Lemma find_maxRow_maximal_witness :
  (0 <= 0 < 2)%nat
  /\ gtb (Math_abs (mget sample_matrix 0 0))
         (Math_abs (mget sample_matrix (find_maxRow sample_matrix 0 2) 0)) = false.
Proof.
  split; [lia|].
  apply (proj2 (find_maxRow_maximal sample_matrix 0 2) 0%nat). lia.
Defined.

End LinearSystem.

(** ** Thresholds 1 and 0, and no candidate key *)

Section SmallThresholds.

Lemma Math_round_integer (v : Z) :
  0 <= v < 2 ^ 53 -> Math_round (Z2F v) = Z2F v.
Proof.
  intros [H0 H]. destruct v as [|p|p]; try lia; [reflexivity|].
  pose proof (digits_bound p H) as HD.
  pose proof (aligned_value p HD) as Hal.
  rewrite (Z2F_pos p) by assumption. unfold Math_round.
  destruct (Z.leb_spec 0 (Zpos (digits2_pos p) - prec)) as [|Hneg]; [reflexivity|].
  simpl cond_Zopp. rewrite Hal.
  replace (- (Zpos (digits2_pos p) - prec)) with (prec - Zpos (digits2_pos p)) by lia.
  replace (1 - (Zpos (digits2_pos p) - prec))
    with (Z.succ (prec - Zpos (digits2_pos p))) by lia.
  rewrite Z.pow_succ_r by lia.
  set (t := 2 ^ (prec - Zpos (digits2_pos p))).
  assert (Ht : 0 < t) by (apply Z.pow_pos_nonneg; lia).
  replace (2 * (Zpos p * t) + t) with ((2 * Zpos p + 1) * t) by ring.
  replace (2 * t) with (t * 2) by ring.
  rewrite <- Z.div_div by lia. rewrite Z.div_mul by lia.
  replace ((2 * Zpos p + 1) / 2) with (Zpos p)
    by (apply Z.div_unique with (r := 1); lia).
  simpl (Zpos p =? 0). cbv iota.
  rewrite (Z2F_pos p) by assumption. reflexivity.
Qed.

(** With one point the sum is the ordinate, whatever the abscissa. *)
Lemma lagrangeInterpolation_one_point (x y : number) (rest : list point) :
  lagrangeInterpolation ((x, y) :: rest) 1
  = Normal (Math_round (zero + y * one)%js).
Proof. reflexivity. Qed.

Lemma one_point_exact (v : Z) :
  0 <= v < 2 ^ 53 -> Math_round (zero + Z2F v * one)%js = Z2F v.
Proof.
  intros Hv. unfold one. change zero with (Z2F 0).
  rewrite mul_exact by lia. rewrite Z.mul_1_r.
  rewrite add_exact by lia. apply Math_round_integer. exact Hv.
Qed.

(** Division by one of an integer below 2^53 is exact. *)
Lemma div_one_exact (v : Z) : 0 <= v < 2 ^ 53 -> (Z2F v / one)%js = Z2F v.
Proof.
  intros [H0 H]. destruct v as [|p|p]; try lia; [reflexivity|].
  pose proof (digits_bound p H) as HD.
  pose proof (aligned_value p HD) as Hal.
  pose proof (aligned_digits p HD) as Had.
  assert (H1 : 1 <= Zpos (digits2_pos p)) by lia.
  rewrite (Z2F_pos p) by assumption.
  replace one with (S754_finite false 4503599627370496 (-52)) by reflexivity.
  unfold div, SFdiv. simpl xorb.
  set (e1 := Zpos (digits2_pos p) - prec) in *.
  assert (Hcore : SFdiv_core_binary prec emax (Zpos (aligned p)) e1
                    (Zpos 4503599627370496) (-52)
                  = (Zpos (aligned p)~0, e1 - 1, loc_Exact)).
  { unfold SFdiv_core_binary. unfold Zdigits2. rewrite Had.
    replace (digits2_pos 4503599627370496) with 53%positive by reflexivity.
    replace (Z.min (fexp prec emax (prec + e1 - (53 + -52))) (e1 - -52))
      with (e1 - 1)
      by (unfold fexp, emin, e1; unfold prec, emax in *; lia).
    replace (e1 - -52 - (e1 - 1)) with 53 by lia.
    rewrite Z.shiftl_mul_pow2 by lia.
    replace (Zpos (aligned p) * 2 ^ 53) with (Zpos (aligned p)~0 * 4503599627370496)
      by (rewrite (Pos2Z.inj_xO (aligned p));
          change 4503599627370496 with (2 ^ 52); change (2 ^ 53) with (2 * 2 ^ 52);
          ring).
    pose proof (Z.div_eucl_eq (Zpos (aligned p)~0 * 4503599627370496) 4503599627370496
                  ltac:(lia)) as Heq.
    pose proof (Z.mod_pos_bound (Zpos (aligned p)~0 * 4503599627370496) 4503599627370496
                  ltac:(lia)) as Hmod.
    unfold Z.modulo in Hmod.
    destruct (Z.div_eucl (Zpos (aligned p)~0 * 4503599627370496) 4503599627370496)
      as [q r].
    assert (q = Zpos (aligned p)~0 /\ r = 0) as [-> ->] by nia.
    reflexivity. }
  rewrite Hcore.
  rewrite (binary_round_aux_exact false (aligned p)~0 p (e1 - 1));
    [reflexivity | assumption | unfold e1; lia |].
  rewrite Pos2Z.inj_xO, Hal. unfold e1.
  replace (- (Zpos (digits2_pos p) - prec - 1))
    with (Z.succ (prec - Zpos (digits2_pos p))) by lia.
  rewrite Z.pow_succ_r by lia. ring.
Qed.

Lemma solve_points_one_point (x y : number) :
  solve_points [(x, y)] 1 = Some (y / one)%js.
Proof. reflexivity. Qed.

(** X13: the threshold 1.  When k = 1 and the entry under the first key of
    1..n that has one is a non-empty string of valid digits denoting
    v < 2^53 (the other entries being valid), both solvers return exactly
    v: the secret of [solveShamirSecretSharing] and the result of
    [solvePolynomial] are the Number of v. *)
Theorem threshold_one
    (td : TestData) (i : Z) (others : list Z) (e : EncodedPoint) (b : Z) :
  keys_k td = 1 ->
  valid_entries td ->
  present_keys td = i :: others ->
  entries td !! i = Some e ->
  2 <= b <= 36 ->
  parseInt (base e) None = Z2F b ->
  value e <> EmptyString ->
  valid_in_base b (value e) = true ->
  positional b (value e) < 2 ^ 53 ->
  (exists sol, solveShamirSecretSharing td = Normal sol
               /\ secret sol = Z2F (positional b (value e)))
  /\ solvePolynomial td = Some (Z2F (positional b (value e))).
Proof.
  intros Hk Hvalid Hkeys He Hb Hbase Hne Hv Hlt.
  assert (Hpos : 0 <= positional b (value e)).
  { rewrite positional_fold. apply (digit_step_grows b (chars (value e))); lia. }
  destruct (decode_parseValue_agree e b Hb Hbase Hne Hv Hlt) as [Hdec Hpv].
  split.
  - destruct (parseTestCase_completes td Hvalid) as [parsed Hparsed].
    destruct (parseTestCase_points td parsed Hparsed) as (Hpk & Hfound & Hpts).
    rewrite Hkeys in Hpts. inversion Hpts as [|i' p0 l ps Hp0 Hrest]; subst.
    destruct p0 as [x y]. destruct Hp0 as (e' & He' & _ & Hy).
    rewrite He in He'. inversion He'; subst e'. simpl in Hy.
    rewrite Hdec, Hpv in Hy. inversion Hy; subst y.
    unfold solveShamirSecretSharing. rewrite Hparsed.
    cbn [mbind completion_bind].
    rewrite Hpk, Hfound, Hk.
    match goal with H : _ = parsed_points parsed |- _ => rewrite <- H end.
    rewrite lagrangeInterpolation_one_point. cbn [mbind completion_bind].
    destruct (_ <? 1) eqn:Hlt1;
      [apply Z.ltb_lt in Hlt1; simpl length in Hlt1; lia|].
    eexists. split; [reflexivity|]. cbn [secret]. apply one_point_exact. lia.
  - unfold solvePolynomial. rewrite extract_points_take, Hkeys, Hk. simpl.
    unfold linear_point. rewrite He, Hpv, solve_points_one_point.
    rewrite div_one_exact by lia. reflexivity.
Qed.

(** X14: the threshold 0 is not refused.  With valid entries and k = 0,
    [solveShamirSecretSharing] returns the secret 0 with
    [polynomial_degree] -1, and [solvePolynomial] returns [undefined]. *)
Theorem threshold_zero (td : TestData) :
  keys_k td = 0 ->
  valid_entries td ->
  (exists sol, solveShamirSecretSharing td = Normal sol
               /\ secret sol = zero /\ pointsUsed sol = 0
               /\ polynomial_degree sol = Z2F (-1))
  /\ solvePolynomial td = None.
Proof.
  intros Hk Hvalid. split.
  - destruct (parseTestCase_completes td Hvalid) as [parsed Hparsed].
    destruct (parseTestCase_points td parsed Hparsed) as (Hpk & Hfound & _).
    unfold solveShamirSecretSharing. rewrite Hparsed. simpl.
    rewrite Hpk, Hfound, Hk.
    destruct (Z.ltb_spec (Z.of_nat (length (parsed_points parsed))) 0); [lia|].
    eexists. split; [reflexivity|]. simpl. auto.
  - apply solvePolynomial_None_iff. left. lia.
Qed.

Lemma single_share_input_valid : valid_entries single_share_input.
Proof.
  intros i e Hi He. simpl in Hi.
  assert (Hcases : i = 1 \/ i = 2 \/ i = 3) by lia.
  destruct Hcases as [-> | [-> | ->]]; vm_compute in He;
    try discriminate He; inversion He; subst e;
    [exists 16 | exists 10]; (split; [lia | split; vm_compute; reflexivity]).
Defined.

Lemma threshold_one_witness :
  (exists sol, solveShamirSecretSharing single_share_input = Normal sol
               /\ secret sol = Z2F (positional 16 "ff"))
  /\ solvePolynomial single_share_input = Some (Z2F (positional 16 "ff")).
Proof.
  apply (threshold_one single_share_input 2 [3] (entry "16" "ff") 16).
  - reflexivity.
  - exact single_share_input_valid.
  - vm_compute. reflexivity.
  - vm_compute. reflexivity.
  - lia.
  - vm_compute. reflexivity.
  - discriminate.
  - reflexivity.
  - reflexivity.
Defined.

Lemma zero_threshold_input_valid : valid_entries zero_threshold_input.
Proof.
  intros i e Hi He. simpl in Hi.
  assert (Hcases : i = 1 \/ i = 2) by lia.
  destruct Hcases as [-> | ->]; vm_compute in He;
    try discriminate He; inversion He; subst e;
    exists 10; (split; [lia | split; vm_compute; reflexivity]).
Defined.

Lemma threshold_zero_witness :
  (exists sol, solveShamirSecretSharing zero_threshold_input = Normal sol
               /\ secret sol = zero /\ pointsUsed sol = 0
               /\ polynomial_degree sol = Z2F (-1))
  /\ solvePolynomial zero_threshold_input = None.
Proof.
  apply (threshold_zero zero_threshold_input);
    [reflexivity | exact zero_threshold_input_valid].
Defined.

(** X15: without candidate keys nothing is read.  When n <= 0 the loops
    examine no key, whatever the input holds: [parseTestCase] returns no
    point, [solveShamirSecretSharing] throws [InsufficientPoints k 0] for
    k >= 1, and [solvePolynomial] returns [undefined]. *)
Theorem no_candidate_keys (td : TestData) :
  keys_n td <= 0 ->
  (exists parsed, parseTestCase td = Normal parsed
                  /\ parsed_points parsed = [] /\ totalPointsFound parsed = 0)
  /\ (1 <= keys_k td ->
      solveShamirSecretSharing td = Throw (InsufficientPoints (keys_k td) 0))
  /\ solvePolynomial td = None.
Proof.
  intros Hn.
  assert (Hparse : parseTestCase td
                   = Normal {| parsed_n := keys_n td; parsed_k := keys_k td;
                               parsed_points := []; totalPointsFound := 0 |}).
  { unfold parseTestCase. replace (Z.to_nat (keys_n td)) with 0%nat by lia.
    reflexivity. }
  split; [eexists; split; [exact Hparse | split; reflexivity]|].
  split.
  - intros Hk. unfold solveShamirSecretSharing. rewrite Hparse.
    cbn [mbind completion_bind parsed_k totalPointsFound parsed_points].
    destruct (Z.ltb_spec 0 (keys_k td)); [reflexivity | lia].
  - apply solvePolynomial_None_iff. right.
    unfold present_keys. rewrite seqZ_nil by lia. reflexivity.
Qed.

Lemma no_candidate_keys_witness :
  keys_n no_candidate_input <= 0
  /\ 1 <= keys_k no_candidate_input
  /\ solveShamirSecretSharing no_candidate_input
     = Throw (InsufficientPoints (keys_k no_candidate_input) 0).
Proof.
  split; [simpl; lia|]. split; [simpl; lia|].
  apply (proj1 (proj2 (no_candidate_keys no_candidate_input ltac:(simpl; lia)))).
  simpl. lia.
Defined.

End SmallThresholds.

(** ** Only the first k shares count *)

Section FirstShares.

Lemma decoded_points_agree (td1 td2 : TestData) (keys : list Z) :
  (forall i, In i keys -> entries td1 !! i = entries td2 !! i) ->
  forall pts1 pts2,
    Forall2 (decoded_at td1) keys pts1 ->
    Forall2 (decoded_at td2) keys pts2 ->
    pts1 = pts2.
Proof.
  induction keys as [|i keys IH]; intros Hagree pts1 pts2 H1 H2.
  - inversion H1; inversion H2; reflexivity.
  - inversion H1 as [|? p1 ? l1 Hp1 Hl1]; inversion H2 as [|? p2 ? l2 Hp2 Hl2]; subst.
    f_equal.
    + destruct Hp1 as (e1 & He1 & Hx1 & Hy1), Hp2 as (e2 & He2 & Hx2 & Hy2).
      rewrite (Hagree i) in He1 by (left; reflexivity).
      rewrite He1 in He2. inversion He2; subst e2.
      rewrite Hy1 in Hy2. inversion Hy2 as [Hy].
      destruct p1, p2; simpl in *; congruence.
    + apply IH; [|assumption|assumption].
      intros j Hj. apply Hagree. right. exact Hj.
Qed.

(** X16: only the first k shares count.  For two inputs with the same k >= 0
    whose first k keys with an entry are the same keys with the same
    entries, [solvePolynomial] gives the same result, and whenever
    [solveShamirSecretSharing] returns on both it returns the same secret:
    no later share is compared with the polynomial of the first k. *)
Theorem later_shares_ignored (td1 td2 : TestData) :
  keys_k td1 = keys_k td2 ->
  0 <= keys_k td1 ->
  take (Z.to_nat (keys_k td1)) (present_keys td1)
    = take (Z.to_nat (keys_k td1)) (present_keys td2) ->
  (forall i, In i (take (Z.to_nat (keys_k td1)) (present_keys td1)) ->
             entries td1 !! i = entries td2 !! i) ->
  solvePolynomial td1 = solvePolynomial td2
  /\ forall sol1 sol2,
       solveShamirSecretSharing td1 = Normal sol1 ->
       solveShamirSecretSharing td2 = Normal sol2 ->
       secret sol1 = secret sol2.
Proof.
  intros Hk Hk0 Hkeys Hagree. split.
  - unfold solvePolynomial. rewrite !extract_points_take, <- Hk.
    change (map (linear_point td1) (present_keys td1))
      with (linear_point td1 <$> present_keys td1).
    change (map (linear_point td2) (present_keys td2))
      with (linear_point td2 <$> present_keys td2).
    rewrite <- !fmap_take, <- Hkeys. f_equal.
    apply list_fmap_ext. intros n i Hi. unfold linear_point.
    rewrite (Hagree i); [reflexivity|].
    apply list_elem_of_In, list_elem_of_lookup. eauto.
  - intros sol1 sol2 H1 H2.
    destruct (solve_selected td1 sol1 Hk0 H1) as (p1 & Hp1 & _ & ->).
    destruct (solve_selected td2 sol2 ltac:(lia) H2) as (p2 & Hp2 & _ & ->).
    destruct (parseTestCase_points td1 p1 Hp1) as (_ & _ & Hpts1).
    destruct (parseTestCase_points td2 p2 Hp2) as (_ & _ & Hpts2).
    apply (Forall2_take _ _ _ (Z.to_nat (keys_k td1))) in Hpts1, Hpts2.
    rewrite <- Hkeys in Hpts2. rewrite <- Hk.
    rewrite (decoded_points_agree td1 td2 _ Hagree _ _ Hpts1 Hpts2). reflexivity.
Qed.

Lemma later_shares_ignored_witness :
  solvePolynomial testCase1 = solvePolynomial testCase1_fourth
  /\ forall sol1 sol2,
       solveShamirSecretSharing testCase1 = Normal sol1 ->
       solveShamirSecretSharing testCase1_fourth = Normal sol2 ->
       secret sol1 = secret sol2.
Proof.
  apply (later_shares_ignored testCase1 testCase1_fourth).
  - reflexivity.
  - simpl. lia.
  - vm_compute. reflexivity.
  - intros i Hi. vm_compute in Hi.
    destruct Hi as [<- | [<- | [<- | []]]]; vm_compute; reflexivity.
Defined.

End FirstShares.

(** ** The sign of a decoded value *)

Section DecodedSign.

Lemma shr_1_nonneg (mrs : shr_record) : 0 <= shr_m mrs -> 0 <= shr_m (shr_1 mrs).
Proof.
  destruct mrs as [m r s]. simpl. intros H.
  destruct m as [|[p|p|]|p]; simpl; lia.
Qed.

Lemma iter_shr_1_nonneg (n : positive) :
  forall mrs, 0 <= shr_m mrs -> 0 <= shr_m (SpecFloat.iter_pos shr_1 n mrs).
Proof.
  induction n as [n IH|n IH|]; intros mrs H; simpl.
  - apply IH, IH, shr_1_nonneg, H.
  - apply IH, IH, H.
  - apply shr_1_nonneg, H.
Qed.

Lemma shr_fexp_nonneg (m e : Z) (l : location) :
  0 <= m -> 0 <= shr_m (fst (shr_fexp prec emax m e l)).
Proof.
  intros H. unfold shr_fexp, shr.
  assert (H0 : 0 <= shr_m (shr_record_of_loc m l)) by (destruct l as [|[]]; exact H).
  destruct (fexp prec emax (Zdigits2 m + e) - e); simpl;
    [exact H0 | apply iter_shr_1_nonneg, H0 | exact H0].
Qed.

Lemma round_nearest_even_nonneg (m : Z) (l : location) :
  0 <= m -> 0 <= round_nearest_even m l.
Proof.
  intros H. destruct l as [|[]]; simpl; try lia. destruct (Z.even m); lia.
Qed.

(** Rounding a non-negative mantissa gives the sign asked for, never NaN. *)
Lemma binary_round_aux_nonneg (m e : Z) (l : location) :
  0 <= m -> nonnegative (binary_round_aux prec emax false m e l) = true.
Proof.
  intros H. unfold binary_round_aux.
  pose proof (shr_fexp_nonneg m e l H) as H1.
  destruct (shr_fexp prec emax m e l) as [mrs' e']. simpl in H1.
  pose proof (shr_fexp_nonneg
                (round_nearest_even (shr_m mrs') (loc_of_shr_record mrs')) e' loc_Exact
                (round_nearest_even_nonneg _ _ H1)) as H2.
  destruct (shr_fexp prec emax _ e' loc_Exact) as [mrs'' e'']. simpl in H2.
  destruct (shr_m mrs'') as [|p|p]; [reflexivity | | lia].
  destruct (e'' <=? emax - prec); reflexivity.
Qed.

Lemma mul_nonnegative (x : number) (m : positive) (e : Z) :
  nonnegative x = true ->
  nonnegative (x * S754_finite false m e)%js = true.
Proof.
  destruct x as [[]|[]| |[] mx ex]; simpl; intros H; try discriminate H;
    try reflexivity.
  apply binary_round_aux_nonneg. lia.
Qed.

Lemma add_nonnegative (x y : number) :
  nonnegative x = true -> nonnegative y = true ->
  nonnegative (x + y)%js = true.
Proof.
  destruct x as [[]|[]| |[] mx ex], y as [[]|[]| |[] my ey]; simpl;
    intros Hx Hy; try discriminate Hx; try discriminate Hy; try reflexivity.
  unfold binary_round.
  destruct (shl_align _ (Z.min ex ey) _) as [mz ez].
  apply binary_round_aux_nonneg. lia.
Qed.

Lemma Z2F_nonnegative (v : Z) : 0 <= v -> nonnegative (Z2F v) = true.
Proof.
  intros H. destruct v as [|p|p]; [reflexivity | | lia].
  unfold Z2F, binary_normalize, binary_round.
  destruct (shl_align p 0 _) as [mz ez]. apply binary_round_aux_nonneg. lia.
Qed.

(** X17: a decoded value is never NaN and never negative.  For a base of
    2..36, whenever [convertToDecimal] returns, the result is +0, a
    positive finite Number or +Infinity, however long the string. *)
Theorem convertToDecimal_nonnegative (b : Z) (value : string) (r : number) :
  2 <= b <= 36 ->
  convertToDecimal value (Z2F b) = Normal r ->
  nonnegative r = true.
Proof.
  intros Hb. unfold convertToDecimal.
  rewrite convert_loop_unfold by assumption.
  destruct (find _ (chars value)) eqn:Hfind; [discriminate|].
  intros H. inversion H; subst r. clear H.
  apply find_invalid_none in Hfind. unfold valid_in_base in Hfind.
  assert (Hbase : exists m e, Z2F b = S754_finite false m e).
  { destruct b as [|p|p]; try lia.
    rewrite (Z2F_pos p) by (apply digits_bound; change (2 ^ 53) with 9007199254740992; lia).
    eauto. }
  destruct Hbase as (m & e & Hbase).
  revert Hfind. generalize zero (eq_refl : nonnegative zero = true).
  induction (chars value) as [|c l IH]; intros acc Hacc Hvalid; [exact Hacc|].
  simpl in Hvalid. apply andb_prop in Hvalid as [Hc Hl].
  simpl. apply IH; [|exact Hl]. unfold accumulate. apply add_nonnegative.
  - rewrite Hbase. apply mul_nonnegative, Hacc.
  - apply Z2F_nonnegative. rewrite indexOf_digits. unfold valid_digit in Hc.
    destruct (parse_digit c) as [d|] eqn:Hd; [|discriminate Hc].
    apply parse_digit_range in Hd. simpl. lia.
Qed.

Lemma convertToDecimal_nonnegative_witness :
  2 <= 3 <= 36
  /\ (exists r, convertToDecimal "20120221122211000100210021102001201112121" (Z2F 3)
               = Normal r /\ nonnegative r = true).
Proof.
  split; [lia|]. eexists. split; [vm_compute; reflexivity|].
  apply (convertToDecimal_nonnegative 3 "20120221122211000100210021102001201112121");
    [lia | vm_compute; reflexivity].
Defined.

End DecodedSign.
